(** * qe_runner: the external-process supervisor of QE_to_TCAD

    A shallow embedding of [src/qe_runner.py] and the properties of its
    executable resolver, run directory manager, process supervisor and
    outcome classifier.

    Conventions of the embedding.
    - A Python [str] is a [string]; its characters are the code points
      below 256 (solver decks and logs are plain text).
    - The file store has directories and regular files, no symbolic links.
      Lookups are answered from the store; what the system turns down
      when a directory is to be made (permissions, limits on names) is
      an oracle of the environment, as is the start of a command.
    - Python exceptions and a wait that never returns are explicit
      outcomes, threaded through a state monad over the [world]. *)

From Stdlib Require Import ZArith NArith Ascii String List Bool Lia.
From stdpp Require Import base option list gmap strings.

Open Scope string_scope.
Open Scope list_scope.

(** ** Characters *)

Definition code (c : ascii) : N := N_of_ascii c.

Definition dquote : ascii := ascii_of_N 34.
Definition bslash : ascii := ascii_of_N 92.

(** Lower-casing of one code point below 256, as the regular expression
    engine does under IGNORECASE: A-Z and the Latin-1 capitals move down
    by 32, everything else is fixed. *)
Definition lower (c : ascii) : ascii :=
  let n := code c in
  if ((65 <=? n) && (n <=? 90))%N then ascii_of_N (n + 32)
  else if ((192 <=? n) && (n <=? 222) && negb (n =? 215))%N
       then ascii_of_N (n + 32)
       else c.

(** The class of white space: what backslash-s matches in a str pattern. *)
Definition is_space (c : ascii) : bool :=
  let n := code c in
  (((9 <=? n) && (n <=? 13)) || ((28 <=? n) && (n <=? 32))
   || (n =? 133) || (n =? 160))%N.

Definition is_alnum (c : ascii) : bool :=
  let n := code c in
  (((48 <=? n) && (n <=? 57)) || ((65 <=? n) && (n <=? 90))
   || ((97 <=? n) && (n <=? 122)))%N.

(** ASCII punctuation: the characters a backslash may quote. *)
Definition is_punct (c : ascii) : bool :=
  let n := code c in
  ((33 <=? n) && (n <=? 126))%N && negb (is_alnum c).

(** ** The regular expressions of the runner

    The fragment of Python's [re] the runner uses: literal characters,
    backslash-quoted punctuation, backslash-s, bracketed classes (negated
    or not) of such items, the greedy quantifiers star, plus and question
    mark on one atom, and one capturing group. *)
Module Re.

Inductive citem := IChr (c : ascii) | ISpace.
Inductive atom := AChr (c : ascii) | ASpace | AIn (neg : bool) (items : list citem).
Inductive quant := One | Star | Plus | Opt.
Inductive op := Rep (q : quant) (a : atom) | MarkOpen | MarkClose.

Definition prog := list op.

(** *** Compilation of the pattern text *)

Inductive pmode :=
| Top
| Esc
| ClsStart
| Cls (neg : bool) (acc : list citem)
| ClsEsc (neg : bool) (acc : list citem).

(** [pstate]: the mode and the operations read so far, last one first. *)
Definition pstate := (pmode * list op)%type.

Definition requantify (q : quant) (ops : list op) : option (list op) :=
  match ops with
  | Rep One a :: ops' => Some (Rep q a :: ops')
  | _ => None
  end.

Definition is_meta (c : ascii) : bool :=
  existsb (Ascii.eqb c)
    ("."%char :: "^"%char :: "$"%char :: "|"%char :: "{"%char :: "}"%char
      :: "]"%char :: nil).

Definition pstep (st : option pstate) (c : ascii) : option pstate :=
  match st with
  | None => None
  | Some (Top, ops) =>
      if Ascii.eqb c bslash then Some (Esc, ops)
      else if Ascii.eqb c "[" then Some (ClsStart, ops)
      else if Ascii.eqb c "(" then Some (Top, MarkOpen :: ops)
      else if Ascii.eqb c ")" then Some (Top, MarkClose :: ops)
      else if Ascii.eqb c "*" then pair Top <$> requantify Star ops
      else if Ascii.eqb c "+" then pair Top <$> requantify Plus ops
      else if Ascii.eqb c "?" then pair Top <$> requantify Opt ops
      else if is_meta c then None
      else Some (Top, Rep One (AChr c) :: ops)
  | Some (Esc, ops) =>
      if Ascii.eqb c "s" then Some (Top, Rep One ASpace :: ops)
      else if is_punct c then Some (Top, Rep One (AChr c) :: ops)
      else None
  | Some (ClsStart, ops) =>
      if Ascii.eqb c "^" then Some (Cls true nil, ops)
      else if Ascii.eqb c bslash then Some (ClsEsc false nil, ops)
      else if Ascii.eqb c "]" || Ascii.eqb c "-" then None
      else Some (Cls false (IChr c :: nil), ops)
  | Some (Cls neg acc, ops) =>
      if Ascii.eqb c "]" then
        match acc with
        | nil => None
        | _ => Some (Top, Rep One (AIn neg (rev acc)) :: ops)
        end
      else if Ascii.eqb c bslash then Some (ClsEsc neg acc, ops)
      else if Ascii.eqb c "-" || Ascii.eqb c "[" then None
      else Some (Cls neg (IChr c :: acc), ops)
  | Some (ClsEsc neg acc, ops) =>
      if Ascii.eqb c "s" then Some (Cls neg (ISpace :: acc), ops)
      else if is_punct c then Some (Cls neg (IChr c :: acc), ops)
      else None
  end.

Fixpoint pfold (st : option pstate) (s : string) : option pstate :=
  match s with
  | EmptyString => st
  | String c s' => pfold (pstep st c) s'
  end.

(** At most one group, opened before it is closed. *)
Fixpoint marks_ok (opened closed : bool) (p : prog) : bool :=
  match p with
  | nil => eqb opened closed
  | MarkOpen :: p' => negb opened && marks_ok true closed p'
  | MarkClose :: p' => opened && negb closed && marks_ok opened true p'
  | Rep _ _ :: p' => marks_ok opened closed p'
  end.

(** [compile pat]: the program of a pattern of the fragment; [None] for a
    pattern outside it. *)
Definition compile (pat : string) : option prog :=
  match pfold (Some (Top, nil)) pat with
  | Some (Top, ops) =>
      let p := rev ops in if marks_ok false false p then Some p else None
  | _ => None
  end.

(** *** Matching *)

Definition chr_match (ic : bool) (p c : ascii) : bool :=
  if ic then Ascii.eqb (lower c) (lower p) else Ascii.eqb c p.

Definition item_match (ic : bool) (i : citem) (c : ascii) : bool :=
  match i with
  | IChr p => chr_match ic p c
  | ISpace => is_space c
  end.

Definition atom_match (ic : bool) (a : atom) (c : ascii) : bool :=
  match a with
  | AChr p => chr_match ic p c
  | ASpace => is_space c
  | AIn neg items => xorb neg (existsb (fun i => item_match ic i c) items)
  end.

(** The text left at the marks of group 1. *)
Record marks := { m_open : option string; m_close : option string }.

Definition no_marks : marks := {| m_open := None; m_close := None |}.

(** Greedy repetition with backtracking: take as many characters as
    match, and give one back each time the rest of the program fails. *)
Fixpoint star {R} (ok : ascii -> bool) (kont : string -> option R)
    (s : string) : option R :=
  match s with
  | String c s' =>
      if ok c then
        match star ok kont s' with
        | Some r => Some r
        | None => kont s
        end
      else kont s
  | EmptyString => kont s
  end.

(** [exec ic p s mk]: match program [p] at the start of [s]; the result is
    the text left after the match and the marks. *)
Fixpoint exec (ic : bool) (p : prog) (s : string) (mk : marks)
    : option (string * marks) :=
  match p with
  | nil => Some (s, mk)
  | Rep One a :: k =>
      match s with
      | String c s' => if atom_match ic a c then exec ic k s' mk else None
      | EmptyString => None
      end
  | Rep Opt a :: k =>
      match s with
      | String c s' =>
          if atom_match ic a c then
            match exec ic k s' mk with
            | Some r => Some r
            | None => exec ic k s mk
            end
          else exec ic k s mk
      | EmptyString => exec ic k s mk
      end
  | Rep Star a :: k => star (atom_match ic a) (fun s' => exec ic k s' mk) s
  | Rep Plus a :: k =>
      match s with
      | String c s' =>
          if atom_match ic a c
          then star (atom_match ic a) (fun s'' => exec ic k s'' mk) s'
          else None
      | EmptyString => None
      end
  | MarkOpen :: k =>
      exec ic k s {| m_open := Some s; m_close := m_close mk |}
  | MarkClose :: k =>
      exec ic k s {| m_open := m_open mk; m_close := Some s |}
  end.

(** A match object: the text from the start of the match, the text after
    it, and the marks. *)
Record match_obj := { m_from : string; m_rest : string; m_marks : marks }.

(** [search]: the leftmost position at which the program matches. *)
Fixpoint search (ic : bool) (p : prog) (s : string) : option match_obj :=
  match exec ic p s no_marks with
  | Some (rest, mk) => Some {| m_from := s; m_rest := rest; m_marks := mk |}
  | None =>
      match s with
      | String _ s' => search ic p s'
      | EmptyString => None
      end
  end.

Fixpoint take (n : nat) (s : string) : string :=
  match n, s with
  | S n', String c s' => String c (take n' s')
  | _, _ => EmptyString
  end.

(** [group1 m]: the text between the two marks; [None] when the group
    took no part in the match. *)
Definition group1 (m : match_obj) : option string :=
  match m_open (m_marks m), m_close (m_marks m) with
  | Some a, Some b => Some (take (String.length a - String.length b) a)
  | _, _ => None
  end.

End Re.

(** ** Patterns of the outcome classifier *)

Definition ERROR_PATTERNS : list string :=
  "Error in routine" :: "MPI_ABORT" :: "forrtl: severe"
  :: "Maximum CPU time exceeded" :: "cannot open file" :: "ERROR" :: nil.

Definition SUCCESS_PATTERNS : list string :=
  "convergence has been achieved" :: "JOB DONE\." :: nil.

(** [re_search pat s]: [re.search(pat, s)] seen as a truth value. *)
Definition re_search (pat : string) (s : string) : bool :=
  match Re.compile pat with
  | Some p => bool_decide (is_Some (Re.search false p s))
  | None => false
  end.

(** ** The directory-declaration extractor *)

(** The text after the key in the pattern of [_parse_namelist_value]. *)
Definition namelist_tail : string :=
  "\s*=\s*['" +:+ String bslash (String dquote "]?([^,'")
  +:+ String bslash (String dquote "\s]+)").

(** [_parse_namelist_value text key]. The key is spliced into the pattern;
    keys that leave the fragment of [Re] are outside the embedding. *)
Definition _parse_namelist_value (text key : string) : option string :=
  match Re.compile (key +:+ namelist_tail) with
  | Some p =>
      match Re.search true p text with
      | Some m => Re.group1 m
      | None => None
      end
  | None => None
  end.

(** ** Pure paths ([pathlib.PurePosixPath])

    A path is its anchor and its components. Parsing drops empty and
    single-dot components and keeps double-dot ones. The root of exactly
    two slashes, which POSIX leaves to the implementation, is identified
    with the root, as Linux does. *)

Fixpoint split_slash (s : string) : list string :=
  match s with
  | EmptyString => "" :: nil
  | String c s' =>
      if Ascii.eqb c "/" then "" :: split_slash s'
      else match split_slash s' with
           | h :: t => String c h :: t
           | nil => String c "" :: nil
           end
  end.

(** [c in s] *)
Fixpoint char_in (c : ascii) (s : string) : bool :=
  match s with
  | EmptyString => false
  | String d s' => Ascii.eqb d c || char_in c s'
  end.

Definition isabs (s : string) : bool :=
  match s with
  | String c _ => Ascii.eqb c "/"
  | EmptyString => false
  end.

Record path := { p_abs : bool; p_parts : list string }.

Definition is_name (x : string) : bool :=
  negb (String.eqb x "") && negb (String.eqb x ".").

Definition Path (s : string) : path :=
  {| p_abs := isabs s; p_parts := List.filter is_name (split_slash s) |}.

Definition is_absolute (p : path) : bool := p_abs p.

Definition parent (p : path) : path :=
  {| p_abs := p_abs p; p_parts := removelast (p_parts p) |}.

(** [p / q] *)
Definition joinpath (p q : path) : path :=
  if p_abs q then q
  else {| p_abs := p_abs p; p_parts := p_parts p ++ p_parts q |}.

Definition name (p : path) : string := List.last (p_parts p) "".

(** [rsplit_dot s]: the text before and after the last dot of [s]. *)
Fixpoint rsplit_dot (s : string) : option (string * string) :=
  match s with
  | EmptyString => None
  | String c s' =>
      match rsplit_dot s' with
      | Some (b, a) => Some (String c b, a)
      | None => if Ascii.eqb c "." then Some ("", s') else None
      end
  end.

Definition stem (p : path) : string :=
  match rsplit_dot (name p) with
  | Some (b, a) =>
      if String.eqb b "" || String.eqb a "" then name p else b
  | None => name p
  end.

Fixpoint join_slash (l : list string) : string :=
  match l with
  | nil => ""
  | x :: nil => x
  | x :: l' => x +:+ "/" +:+ join_slash l'
  end.

(** [str(p)] *)
Definition str (p : path) : string :=
  match p_parts p with
  | nil => if p_abs p then "/" else "."
  | l => (if p_abs p then "/" else "") +:+ join_slash l
  end.

(** ** The file store *)

Inductive content :=
| Text (s : string)
| Undecodable (lenient : string).
  (* bytes the codec rejects; [lenient] is what decoding gives when the
     offending bytes are ignored *)

Inductive node :=
| Dir
| File (readable : bool) (data : content).

(** A location: the names from the root down. *)
Abbreviation loc := (list string).
Abbreviation store := (gmap (list string) node).

Definition node_at (fs : store) (l : loc) : option node :=
  match l with
  | nil => Some Dir
  | _ => fs !! l
  end.

Inductive oserror := ENOENT | ENOTDIR | EEXIST | EISDIR | EACCES.

(** One step of name resolution. *)
Definition kstep (cur : loc) (c : string) : loc :=
  if String.eqb c "." then cur
  else if String.eqb c ".." then removelast cur
  else cur ++ c :: nil.

(** [walk fs cur cs]: follow the components [cs] from [cur]; each one has
    to lead to a directory. *)
Fixpoint walk (fs : store) (cur : loc) (cs : list string) : oserror + loc :=
  match cs with
  | nil => inr cur
  | c :: cs' =>
      let nxt := kstep cur c in
      match node_at fs nxt with
      | Some Dir => walk fs nxt cs'
      | Some (File _ _) => inl ENOTDIR
      | None => inl ENOENT
      end
  end.

(** [namei fs start cs]: the location a path names; all components but
    the last have to be directories, the last one need not exist. *)
Definition namei (fs : store) (start : loc) (cs : list string) : oserror + loc :=
  match cs with
  | nil => inr start
  | _ =>
      match walk fs start (removelast cs) with
      | inr cur => inr (kstep cur (List.last cs ""))
      | inl e => inl e
      end
  end.

Definition fs_exists (fs : store) (start : loc) (cs : list string) : bool :=
  match namei fs start cs with
  | inr l => match node_at fs l with Some _ => true | None => false end
  | inl _ => false
  end.

Definition fs_is_dir (fs : store) (start : loc) (cs : list string) : bool :=
  match namei fs start cs with
  | inr l => match node_at fs l with Some Dir => true | _ => false end
  | inl _ => false
  end.

Inductive exn :=
| OSError (e : oserror)
| UnicodeDecodeError
| OverflowError
| ValueError.

(** What the system refuses when a directory is to be made at a free
    place, for reasons the store does not hold: the permissions of the
    parent, the limits on names ([OSError]), a name with a NUL
    ([ValueError]). An oracle of the environment. *)
Abbreviation refusal := (store -> loc -> option exn).

(** [os.mkdir] *)
Definition os_mkdir (refuses : refusal) (fs : store) (start : loc)
    (cs : list string) : exn + store :=
  match namei fs start cs with
  | inl e => inl (OSError e)
  | inr l =>
      match node_at fs l with
      | Some _ => inl (OSError EEXIST)
      | None =>
          match refuses fs l with
          | Some x => inl x
          | None => inr (<[l := Dir]> fs)
          end
      end
  end.

(** [Path.mkdir(parents=False, exist_ok=True)]: a missing parent is an
    error; another failure of [os.mkdir] with an [OSError] is passed over
    when the path is a directory. *)
Definition mkdir_exist_ok (refuses : refusal) (fs : store) (start : loc)
    (cs : list string) : exn + store :=
  match os_mkdir refuses fs start cs with
  | inr fs' => inr fs'
  | inl (OSError ENOENT) => inl (OSError ENOENT)
  | inl (OSError e) => if fs_is_dir fs start cs then inr fs else inl (OSError e)
  | inl x => inl x
  end.

(** [Path.mkdir(parents=True, exist_ok=True)] on the ancestor with [n]
    components of the path [cs]: when a parent is missing, make the
    parent the same way and try once more. The result is the error, if
    any, and the store as it is then: the parents made before a failure
    stay. *)
Fixpoint mkdir_parents (refuses : refusal) (n : nat) (fs : store) (start : loc)
    (cs : list string) : option exn * store :=
  let self := firstn n cs in
  match os_mkdir refuses fs start self with
  | inr fs' => (None, fs')
  | inl (OSError ENOENT) =>
      match n with
      | O => (Some (OSError ENOENT), fs)
      | S n' =>
          match mkdir_parents refuses n' fs start cs with
          | (None, fs1) =>
              match mkdir_exist_ok refuses fs1 start self with
              | inr fs2 => (None, fs2)
              | inl x => (Some x, fs1)
              end
          | (Some x, fs1) => (Some x, fs1)
          end
      end
  | inl (OSError e) =>
      if fs_is_dir fs start self then (None, fs) else (Some (OSError e), fs)
  | inl x => (Some x, fs)
  end.

(** [read_text]: open, read and decode; [strict] is false for
    [errors=ignore]. *)
Definition fs_read_text (strict : bool) (fs : store) (start : loc)
    (cs : list string) : exn + string :=
  match namei fs start cs with
  | inl e => inl (OSError e)
  | inr l =>
      match node_at fs l with
      | None => inl (OSError ENOENT)
      | Some Dir => inl (OSError EISDIR)
      | Some (File false _) => inl (OSError EACCES)
      | Some (File true (Text s)) => inr s
      | Some (File true (Undecodable s)) =>
          if strict then inl UnicodeDecodeError else inr s
      end
  end.

(** [open(p, w)]: create or truncate; the result is the new store and the
    location of the file. *)
Definition fs_open_w (fs : store) (start : loc) (cs : list string)
    : oserror + (store * loc) :=
  match namei fs start cs with
  | inl e => inl e
  | inr l =>
      match node_at fs l with
      | Some Dir => inl EISDIR
      | Some (File r _) => inr (<[l := File r (Text "")]> fs, l)
      | None => inr (<[l := File true (Text "")]> fs, l)
      end
  end.

(** The components the kernel sees in a path given as text: an empty
    component (a doubled or trailing slash) stands for the directory
    reached so far. *)
Definition kcomps (s : string) : list string :=
  map (fun x => if String.eqb x "" then "." else x) (split_slash s).

(** Does the path written [s] exist, seen from the directory [wd]? The
    empty text names nothing. *)
Definition fs_exists_str (fs : store) (wd : loc) (s : string) : bool :=
  negb (String.eqb s "")
  && fs_exists fs (if isabs s then nil else wd) (kcomps s).

(** ** The solver process

    Time is counted in ticks since the spawn. A solver is described by
    what it does when left alone and when asked to terminate. *)

Definition ticks_per_second : Z := 1000.
Definition ticks (seconds : Z) : Z := ticks_per_second * seconds.

Record solver := {
  lifetime : option Z;     (* ticks until it exits by itself, if ever *)
  status : Z;              (* its exit status then *)
  term_delay : option Z;   (* ticks from the termination signal to its
                              exit; [None]: the signal is ignored *)
  term_status : Z;         (* its exit status then *)
  stdout_at : Z -> content;  (* what the output sink holds at a tick *)
  stderr_at : Z -> content
}.

(** The process handle ([subprocess.Popen]). *)
Record proc := {
  beh : solver;
  clock : Z;
  sigterm_at : option Z;
  sigkill_at : option Z;
  returncode : option Z
}.

Definition Popen (b : solver) : proc :=
  {| beh := b; clock := 0; sigterm_at := None; sigkill_at := None;
     returncode := None |}.

Definition earlier (a b : option (Z * Z)) : option (Z * Z) :=
  match a, b with
  | Some (ta, ra), Some (tb, rb) =>
      if (tb <? ta)%Z then Some (tb, rb) else Some (ta, ra)
  | Some x, None => Some x
  | None, y => y
  end.

(** When the process exits, and with which status: by itself, after the
    termination signal, or killed, whichever comes first. *)
Definition exit_of (p : proc) : option (Z * Z) :=
  let natural := (fun t => (t, status (beh p))) <$> lifetime (beh p) in
  let termed :=
    match sigterm_at p, term_delay (beh p) with
    | Some t0, Some d => Some ((t0 + d)%Z, term_status (beh p))
    | _, _ => None
    end in
  let killed := (fun t => (t, (-9)%Z)) <$> sigkill_at p in
  earlier natural (earlier termed killed).

Inductive wait_result := Exited (rc : Z) | Expired | Blocked | Overflow.

(** The integers without a double: adding one to the time of day
    overflows. The largest double is 2^1024 - 2^971, and an integer is
    rounded to the nearest one. *)
Definition float_limit : Z := 2 ^ 1024 - 2 ^ 970.

Definition float_overflows (t : Z) : bool := (float_limit <=? Z.abs t)%Z.

(** [process.wait(timeout)], the timeout in seconds. The end time is
    computed first, whatever the state of the process. *)
Definition proc_wait (timeout : option Z) (p : proc) : wait_result * proc :=
  if match timeout with Some t => float_overflows t | None => false end
  then (Overflow, p) else
  match returncode p with
  | Some rc => (Exited rc, p)
  | None =>
      let exits (e rc : Z) :=
        (Exited rc,
         {| beh := beh p; clock := Z.max (clock p) e;
            sigterm_at := sigterm_at p; sigkill_at := sigkill_at p;
            returncode := Some rc |}) in
      let expires (d : Z) :=
        (Expired,
         {| beh := beh p; clock := (clock p + d)%Z;
            sigterm_at := sigterm_at p; sigkill_at := sigkill_at p;
            returncode := None |}) in
      match exit_of p, timeout with
      | Some (e, rc), None => exits e rc
      | Some (e, rc), Some t =>
          let d := Z.max 0 (ticks t) in
          if (e <=? clock p + d)%Z then exits e rc else expires d
      | None, Some t => expires (Z.max 0 (ticks t))
      | None, None => (Blocked, p)
      end
  end.

(** Has the process gone by now? *)
Definition gone (p : proc) : bool :=
  match returncode p, exit_of p with
  | Some _, _ => true
  | None, Some (e, _) => (e <=? clock p)%Z
  | None, None => false
  end.

(** [process.terminate()] and [process.kill()]: nothing is sent to a
    process that has gone. *)
Definition proc_terminate (p : proc) : proc :=
  if gone p then p
  else {| beh := beh p; clock := clock p; sigterm_at := Some (clock p);
          sigkill_at := sigkill_at p; returncode := returncode p |}.

Definition proc_kill (p : proc) : proc :=
  if gone p then p
  else {| beh := beh p; clock := clock p; sigterm_at := sigterm_at p;
          sigkill_at := Some (clock p); returncode := returncode p |}.

(** ** The world: environment, state and trace *)

Inductive level := INFO | WARNING | ERROR.

Inductive message :=
| MsgRunning (cmd : list string)
| MsgTimedOut (timeout : option Z)
| MsgFinished (elapsed rc : Z)
| MsgInputNotFound (p : path)
| MsgPwNotFound
| MsgPseudoNotFound (p : path)
| MsgOutputError (p : path)
| MsgNoSuccess (p : path).

Inductive signal := SIGTERM | SIGKILL.

Inductive event :=
| EvLog (l : level) (m : message)
| EvExists (p : path)
| EvOsExists (s : string)
| EvWhich (s : string)
| EvReadText (p : path)
| EvMkdir (p : path)
| EvOpen (p : path)
| EvSpawn (cmd : list string) (dir : path)
| EvWait (timeout : option Z) (r : wait_result)
| EvSignal (sg : signal).

(** What the program cannot change. *)
Record env := {
  cwd : loc;                          (* working directory of the runner *)
  which : string -> option string;    (* the search-path lookup *)
  launch : store -> list string -> path -> option solver;
                                      (* starting a command; [None]: the
                                         system refuses *)
  refuses : refusal;                  (* making a directory at a free place *)
  timestamp : string                  (* the formatted local time *)
}.

Record state := { fs : store; trace : list event }.

Definition emit (ev : event) (s : state) : state :=
  {| fs := fs s; trace := trace s ++ ev :: nil |}.

Definition set_fs (f : store) (s : state) : state :=
  {| fs := f; trace := trace s |}.

Inductive outcome (A : Type) :=
| Ret (a : A)
| Raise (x : exn)
| Hang.
Arguments Ret {A} a.
Arguments Raise {A} x.
Arguments Hang {A}.

Definition M (A : Type) : Type := env -> state -> outcome A * state.

Definition ret {A} (a : A) : M A := fun _ s => (Ret a, s).

Definition bind {A B} (m : M A) (k : A -> M B) : M B :=
  fun e s =>
    match m e s with
    | (Ret a, s') => k a e s'
    | (Raise x, s') => (Raise x, s')
    | (Hang, s') => (Hang, s')
    end.

Declare Scope py_scope.
Delimit Scope py_scope with py.
Notation "x <- m ;; k" := (bind m (fun x => k))
  (at level 100, m at next level, right associativity) : py_scope.
Notation "m ;; k" := (bind m (fun _ => k))
  (at level 100, right associativity) : py_scope.

(** [try: body / except OSError: handler / else: cont] *)
Definition try_OSError {A B} (body : M A) (handler : M B) (cont : A -> M B)
    : M B :=
  fun e s =>
    match body e s with
    | (Ret a, s') => cont a e s'
    | (Raise (OSError _), s') => handler e s'
    | (Raise x, s') => (Raise x, s')
    | (Hang, s') => (Hang, s')
    end.

Definition log (l : level) (m : message) : M unit :=
  fun _ s => (Ret tt, emit (EvLog l m) s).

Definition origin (e : env) (p : path) : loc :=
  if p_abs p then nil else cwd e.

(** [Path.exists()], for a lookup the system answers; a name it turns
    down (too long, or behind a directory that may not be searched) is
    outside the model. *)
Definition path_exists (p : path) : M bool :=
  fun e s =>
    (Ret (fs_exists (fs s) (origin e p) (p_parts p)), emit (EvExists p) s).

(** [os.path.exists(s)] *)
Definition os_path_exists (s : string) : M bool :=
  fun e st => (Ret (fs_exists_str (fs st) (cwd e) s), emit (EvOsExists s) st).

(** [shutil.which(s)] *)
Definition shutil_which (s : string) : M (option string) :=
  fun e st => (Ret (which e s), emit (EvWhich s) st).

(** [Path.read_text()] *)
Definition read_text (strict : bool) (p : path) : M string :=
  fun e s =>
    match fs_read_text strict (fs s) (origin e p) (p_parts p) with
    | inr txt => (Ret txt, emit (EvReadText p) s)
    | inl x => (Raise x, emit (EvReadText p) s)
    end.

(** [Path.mkdir(parents=True, exist_ok=True)] *)
Definition mkdir_p (p : path) : M unit :=
  fun e s =>
    match mkdir_parents (refuses e) (length (p_parts p)) (fs s) (origin e p)
            (p_parts p) with
    | (None, f) => (Ret tt, emit (EvMkdir p) (set_fs f s))
    | (Some x, f) => (Raise x, emit (EvMkdir p) (set_fs f s))
    end.

(** [open(p, w)] *)
Definition open_w (p : path) : M loc :=
  fun e s =>
    match fs_open_w (fs s) (origin e p) (p_parts p) with
    | inr (f, l) => (Ret l, emit (EvOpen p) (set_fs f s))
    | inl x => (Raise (OSError x), emit (EvOpen p) s)
    end.

(** [Path.resolve()]: absolute, with the double-dot components followed. *)
Definition resolve (p : path) : M path :=
  fun e s =>
    (Ret {| p_abs := true; p_parts := fold_left kstep (p_parts p) (origin e p) |},
     s).

(** [subprocess.Popen(cmd, cwd=dir, stdout=.., stderr=..)] *)
Definition spawn (cmd : list string) (dir : path) : M proc :=
  fun e s =>
    match launch e (fs s) cmd dir with
    | Some b => (Ret (Popen b), emit (EvSpawn cmd dir) s)
    | None => (Raise (OSError ENOENT), emit (EvSpawn cmd dir) s)
    end.

(** [process.wait(timeout)]: the expiry of the timeout is a result here,
    the caller plays the except clause. *)
Definition wait (timeout : option Z) (p : proc) : M (wait_result * proc) :=
  fun _ s =>
    let (r, p') := proc_wait timeout p in
    match r with
    | Blocked => (Hang, emit (EvWait timeout r) s)
    | Overflow => (Raise OverflowError, emit (EvWait timeout r) s)
    | _ => (Ret (r, p'), emit (EvWait timeout r) s)
    end.

Definition terminate (p : proc) : M proc :=
  fun _ s =>
    (Ret (proc_terminate p),
     if gone p then s else emit (EvSignal SIGTERM) s).

Definition kill (p : proc) : M proc :=
  fun _ s =>
    (Ret (proc_kill p), if gone p then s else emit (EvSignal SIGKILL) s).

(** What the solver has written reaches the two sinks. *)
Definition write_sink (l : loc) (c : content) (f : store) : store :=
  match f !! l with
  | Some (File r _) => <[l := File r c]> f
  | _ => f
  end.

Definition sync_sinks (out err : loc) (p : proc) : M unit :=
  fun _ s =>
    (Ret tt,
     set_fs (write_sink err (stderr_at (beh p) (clock p))
               (write_sink out (stdout_at (beh p) (clock p)) (fs s))) s).

(** ** The runner *)

Open Scope py_scope.

(** Truth value of a [str] or [None]. *)
Definition truthy (o : option string) : bool :=
  match o with
  | Some v => negb (String.eqb v "")
  | None => false
  end.

Definition _find_pw_executable (pw_cmd : string) : M (option string) :=
  if isabs pw_cmd || char_in "/" pw_cmd then
    b <- os_path_exists pw_cmd ;;
    ret (if b then Some pw_cmd else None)
  else shutil_which pw_cmd.

(** The path a declared directory stands for. *)
Definition declared_path (input_path : path) (v : string) : path :=
  let d := Path v in
  if negb (is_absolute d) then joinpath (parent input_path) d else d.

Definition _ensure_output_dirs (input_path : path) : M unit :=
  try_OSError (read_text true input_path) (ret tt) (fun content =>
    let outdir := _parse_namelist_value content "outdir" in
    (if truthy outdir then
       mkdir_p (declared_path input_path (default "" outdir))
     else ret tt) ;;
    let pseudo_dir := _parse_namelist_value content "pseudo_dir" in
    if truthy pseudo_dir then
      let pseudo_path := declared_path input_path (default "" pseudo_dir) in
      b <- path_exists pseudo_path ;;
      if negb b then log WARNING (MsgPseudoNotFound pseudo_path)
      else ret tt
    else ret tt).

Definition _detect_qe_errors (output_path : path) : M (bool * bool) :=
  try_OSError (read_text false output_path) (ret (false, false))
    (fun content =>
       let has_error := existsb (fun pat => re_search pat content) ERROR_PATTERNS in
       let has_success := existsb (fun pat => re_search pat content) SUCCESS_PATTERNS in
       ret (has_error, has_success)).

Definition run_pw (input_file : path) (pw_exec : string)
    (output_path error_path dir : path) (timeout : option Z)
    (mpi_cmd : option (list string)) : M Z :=
  let cmd :=
    ((match mpi_cmd with Some l => l | None => nil end)
       ++ pw_exec :: "-in" :: str input_file :: nil)%list in
  log INFO (MsgRunning cmd) ;;
  out_f <- open_w output_path ;;
  err_f <- open_w error_path ;;
  process <- spawn cmd dir ;;
  w1 <- wait timeout process ;;
  match w1 with
  | (Expired, process) =>
      process <- terminate process ;;
      w2 <- wait (Some 10%Z) process ;;
      process <- (match w2 with
                  | (Expired, process) => kill process
                  | (_, process) => ret process
                  end) ;;
      log ERROR (MsgTimedOut timeout) ;;
      sync_sinks out_f err_f process ;;
      ret 124%Z
  | (Exited rc, process) =>
      sync_sinks out_f err_f process ;;
      log INFO (MsgFinished (clock process) rc) ;;
      ret rc
  | (Blocked, _) => fun _ s => (Hang, s)
  | (Overflow, _) => fun _ s => (Raise OverflowError, s)
  end.

(** The parsed command line. *)
Record args := {
  input : string;
  pw : string;
  mpi : option (list string);
  timeout : option Z;
  run_dir : string;
  out : option string;
  no_timestamp : bool
}.

Definition main (a : args) : M Z :=
  input_path <- resolve (Path (input a)) ;;
  found <- path_exists input_path ;;
  if negb found then
    log ERROR (MsgInputNotFound input_path) ;;
    ret 1%Z
  else
    pw_exec <- _find_pw_executable (pw a) ;;
    if negb (truthy pw_exec) then
      log ERROR MsgPwNotFound ;;
      ret 1%Z
    else
      let pw_exec := default "" pw_exec in
      _ensure_output_dirs input_path ;;
      stamp <- (fun e s => (Ret (timestamp e), s)) ;;
      let run_dir :=
        if no_timestamp a then Path (run_dir a)
        else joinpath (Path (run_dir a))
               (Path (stem input_path +:+ "_" +:+ stamp)) in
      mkdir_p run_dir ;;
      let output_name :=
        if truthy (out a) then default "" (out a)
        else stem input_path +:+ ".out" in
      let output_path := joinpath run_dir (Path output_name) in
      let error_path :=
        joinpath run_dir (Path (stem input_path +:+ ".err")) in
      exit_code <- run_pw input_path pw_exec output_path error_path
                     (parent input_path) (timeout a) (mpi a) ;;
      flags <- _detect_qe_errors output_path ;;
      let (has_error, has_success) := flags : bool * bool in
      if has_error then
        log ERROR (MsgOutputError output_path) ;;
        ret 2%Z
      else
        (if negb has_success then log WARNING (MsgNoSuccess output_path)
         else ret tt) ;;
        ret exit_code.

Close Scope py_scope.

(** * fetcher: the download of pseudopotential files

    A shallow embedding of [download_upf] of [src/fetcher.py]. The
    network is an oracle of the environment: the answer to a request
    depends on the requests made before, on the address and on the
    timeout. *)
Module Fetcher.

Inductive response :=
| Response (status_code : Z) (body : string)
| RequestException.

Inductive fmessage :=
| MsgAttempt (element : string)
| MsgSavedStandard (name : string)
| MsgKnownStatus (status_code : Z)
| MsgKnownConnection
| MsgSaved (name url : string)
| MsgGiveUp (element : string).

Record fenv := {
  fcwd : loc;
  (* the answer to a request, given the requests made so far *)
  http : list (string * Z) -> string -> Z -> response;
  (* what a file holds, seen as text, once these bytes are written *)
  stored : string -> content
}.

Record fstate := {
  ffs : store;
  asked : list (string * Z);        (* the requests made, with their timeouts *)
  flog : list (level * fmessage)
}.

Definition FM (A : Type) : Type := fenv -> fstate -> outcome A * fstate.

Definition fret {A} (a : A) : FM A := fun _ s => (Ret a, s).

Definition fbind {A B} (m : FM A) (k : A -> FM B) : FM B :=
  fun e s =>
    match m e s with
    | (Ret a, s') => k a e s'
    | (Raise x, s') => (Raise x, s')
    | (Hang, s') => (Hang, s')
    end.

Declare Scope fetch_scope.
Delimit Scope fetch_scope with fetch.
Notation "x <- m ;; k" := (fbind m (fun x => k))
  (at level 100, m at next level, right associativity) : fetch_scope.
Notation "m ;; k" := (fbind m (fun _ => k))
  (at level 100, right associativity) : fetch_scope.

Definition UPF_BASE_URLS : list string :=
  "https://pseudopotentials.quantum-espresso.org/upf_files/{}"
  :: "https://raw.githubusercontent.com/pseudo-dojo/pseudo-dojo/main/pseudos/nc-sr-04_pbe_standard/{}"
  :: "https://raw.githubusercontent.com/dalcorso/pslibrary/master/upf/{}"
  :: nil.

Definition UPF_SUFFIXES : list string :=
  ".UPF" :: ".upf"
  :: ".pbe-n-kjpaw_psl.1.0.0.UPF" :: ".pbe-n-rrkjus_psl.1.0.0.UPF"
  :: ".pbe-dn-kjpaw_psl.1.0.0.UPF" :: ".pbe-dn-rrkjus_psl.1.0.0.UPF"
  :: ".pbe-dnl-kjpaw_psl.1.0.0.UPF" :: ".pbe-sp-van_ak.UPF"
  :: ".pbe-hgh.UPF" :: "_oncv_psp8.upf" :: nil.

Definition KNOWN_UPF_URLS : gmap string string :=
  list_to_map
    (("Si", "https://pseudopotentials.quantum-espresso.org/upf_files/Si.pbe-n-rrkjus_psl.1.0.0.UPF")
     :: ("Ga", "https://pseudopotentials.quantum-espresso.org/upf_files/Ga.pbe-dn-kjpaw_psl.1.0.0.UPF")
     :: ("N", "https://pseudopotentials.quantum-espresso.org/upf_files/N.pbe-n-kjpaw_psl.1.0.0.UPF")
     :: ("Al", "https://pseudopotentials.quantum-espresso.org/upf_files/Al.pbe-n-kjpaw_psl.1.0.0.UPF")
     :: ("C", "https://pseudopotentials.quantum-espresso.org/upf_files/C.pbe-n-kjpaw_psl.1.0.0.UPF")
     :: ("O", "https://pseudopotentials.quantum-espresso.org/upf_files/O.pbe-n-kjpaw_psl.1.0.0.UPF")
     :: ("Na", "https://pseudopotentials.quantum-espresso.org/upf_files/Na.pbe-sp-van_ak.UPF")
     :: ("Zn", "https://pseudopotentials.quantum-espresso.org/upf_files/Zn.pbe-dnl-kjpaw_psl.1.0.0.UPF")
     :: nil).

(** [template.format(arg)] for a template with one pair of braces. *)
Fixpoint format1 (template arg : string) : string :=
  match template with
  | String c rest =>
      match rest with
      | String d rest' =>
          if Ascii.eqb c "{" && Ascii.eqb d "}" then arg +:+ rest'
          else String c (format1 rest arg)
      | EmptyString => template
      end
  | EmptyString => ""
  end.

Fixpoint ends_with_slash (s : string) : bool :=
  match s with
  | EmptyString => false
  | String c EmptyString => Ascii.eqb c "/"
  | String _ s' => ends_with_slash s'
  end.

(** [os.path.join(a, b)] *)
Definition os_path_join (a b : string) : string :=
  if isabs b then b
  else if String.eqb a "" || ends_with_slash a then a +:+ b
  else a +:+ "/" +:+ b.

(** [open(name, wb)] followed by [write(body)], on a path given as text. *)
Definition fs_write_file (f : store) (wd : loc) (name : string) (data : content)
    : oserror + store :=
  if String.eqb name "" then inl ENOENT
  else
    match fs_open_w f (if isabs name then nil else wd) (kcomps name) with
    | inr (f', l) => inr (write_sink l data f')
    | inl x => inl x
    end.

(** [requests.get(url, timeout=t)] *)
Definition get (url : string) (t : Z) : FM response :=
  fun e s =>
    (Ret (http e (asked s) url t),
     {| ffs := ffs s; asked := asked s ++ (url, t) :: nil; flog := flog s |}).

Definition flog_msg (l : level) (m : fmessage) : FM unit :=
  fun _ s =>
    (Ret tt, {| ffs := ffs s; asked := asked s; flog := flog s ++ (l, m) :: nil |}).

Definition write_file (name body : string) : FM unit :=
  fun e s =>
    match fs_write_file (ffs s) (fcwd e) name (stored e body) with
    | inr f => (Ret tt, {| ffs := f; asked := asked s; flog := flog s |})
    | inl x => (Raise (OSError x), s)
    end.

Open Scope fetch_scope.

(** The inner loop of the generic search: the suffixes, for one base. *)
Fixpoint try_suffixes (element output_dir base_url : string)
    (suffixes : list string) : FM (option string) :=
  match suffixes with
  | nil => fret None
  | suffix :: suffixes' =>
      let filename_remote := element +:+ suffix in
      let url := format1 base_url filename_remote in
      r <- get url 5 ;;
      match r with
      | Response code body =>
          if (code =? 200)%Z then
            let local_filename := os_path_join output_dir (element +:+ ".UPF") in
            write_file local_filename body ;;
            flog_msg INFO (MsgSaved local_filename url) ;;
            fret (Some local_filename)
          else try_suffixes element output_dir base_url suffixes'
      | RequestException => try_suffixes element output_dir base_url suffixes'
      end
  end.

(** The outer loop: the bases. *)
Fixpoint try_bases (element output_dir : string) (bases : list string)
    : FM (option string) :=
  match bases with
  | nil => fret None
  | base_url :: bases' =>
      r <- try_suffixes element output_dir base_url UPF_SUFFIXES ;;
      match r with
      | Some name => fret (Some name)
      | None => try_bases element output_dir bases'
      end
  end.

(** The first step: the known address of the element, if it has one.
    The result is the local name when that download succeeded. *)
Definition try_known (element output_dir : string) : FM (option string) :=
  match KNOWN_UPF_URLS !! element with
  | Some url =>
      flog_msg INFO (MsgAttempt element) ;;
      r <- get url 10 ;;
      match r with
      | Response code body =>
          if (code =? 200)%Z then
            let local_filename := os_path_join output_dir (element +:+ ".UPF") in
            write_file local_filename body ;;
            flog_msg INFO (MsgSavedStandard local_filename) ;;
            fret (Some local_filename)
          else
            flog_msg WARNING (MsgKnownStatus code) ;;
            fret None
      | RequestException =>
          flog_msg WARNING MsgKnownConnection ;;
          fret None
      end
  | None => fret None
  end.

Definition download_upf (element output_dir : string) : FM (option string) :=
  k <- try_known element output_dir ;;
  match k with
  | Some name => fret (Some name)
  | None =>
      g <- try_bases element output_dir UPF_BASE_URLS ;;
      match g with
      | Some name => fret (Some name)
      | None =>
          flog_msg ERROR (MsgGiveUp element) ;;
          fret None
      end
  end.

Close Scope fetch_scope.

(** The addresses [download_upf] may ask, in the order it asks them, each
    with its timeout. *)
Definition generic_urls (element : string) : list string :=
  flat_map
    (fun base_url =>
       map (fun suffix => format1 base_url (element +:+ suffix)) UPF_SUFFIXES)
    UPF_BASE_URLS.

Definition candidates (element : string) : list (string * Z) :=
  match KNOWN_UPF_URLS !! element with
  | Some url => (url, 10%Z) :: nil
  | None => nil
  end
  ++ map (fun url => (url, 5%Z)) (generic_urls element).

(** Is this the answer that ends the search? *)
Definition is_hit (r : response) : bool :=
  match r with
  | Response code _ => (code =? 200)%Z
  | RequestException => false
  end.

(** [misses e hist cs]: asked in this order after the requests [hist],
    none of the candidates [cs] is answered with the status 200. *)
Fixpoint misses (e : fenv) (hist : list (string * Z)) (cs : list (string * Z))
    : bool :=
  match cs with
  | nil => true
  | (url, t) :: cs' =>
      negb (is_hit (http e hist url t)) && misses e (hist ++ (url, t) :: nil) cs'
  end.

(** The search of the two loops, over the flat list of addresses. *)
Fixpoint try_urls (element output_dir : string) (urls : list string)
    : FM (option string) :=
  match urls with
  | nil => fret None
  | url :: urls' =>
      fbind (get url 5) (fun r =>
        match r with
        | Response code body =>
            if (code =? 200)%Z then
              fbind (write_file (os_path_join output_dir (element +:+ ".UPF")) body)
                (fun _ =>
                   fbind (flog_msg INFO
                            (MsgSaved (os_path_join output_dir (element +:+ ".UPF")) url))
                     (fun _ => fret (Some (os_path_join output_dir (element +:+ ".UPF")))))
            else try_urls element output_dir urls'
        | RequestException => try_urls element output_dir urls'
        end)
  end.

(** The first candidate answered with the status 200: the candidates
    asked in vain before it, the candidate, and the body of the answer. *)
Fixpoint first_hit (e : fenv) (hist : list (string * Z)) (cs : list (string * Z))
    : option (list (string * Z) * (string * Z) * string) :=
  match cs with
  | nil => None
  | (url, t) :: cs' =>
      let later :=
        match first_hit e (hist ++ (url, t) :: nil) cs' with
        | Some (before, c, body) => Some ((url, t) :: before, c, body)
        | None => None
        end in
      match http e hist url t with
      | Response code body =>
          if (code =? 200)%Z then Some (nil, (url, t), body) else later
      | RequestException => later
      end
  end.

(** A network that answers one address, and a silent one. *)
Definition env_one (good : string) : fenv :=
  {| fcwd := "home" :: "u" :: nil;
     http := fun _ url _ =>
               if String.eqb url good then Response 200 "<UPF/>"
               else Response 404 "";
     stored := Text |}.

Definition env_down : fenv :=
  {| fcwd := "home" :: "u" :: nil;
     http := fun _ _ _ => RequestException;
     stored := Text |}.

Definition st0 (f : store) : fstate := {| ffs := f; asked := nil; flog := nil |}.

End Fetcher.

(** * qe_input_generator: the search for a pseudopotential file

    A shallow embedding of [find_pseudopotential] of
    [src/qe_input_generator.py]. The order in which a directory lists its
    entries is an oracle of the environment. Of the patterns of [fnmatch]
    the star, the question mark and plain characters are modelled; a
    pattern with a bracket or a separator is outside the model. *)
Module Generator.

Inductive gmessage :=
| MsgNoDirectory (pseudo_dir : string)
| MsgFound (element name : string)
| MsgNotFound (element pseudo_dir : string).

Record genv := {
  gcwd : loc;
  scandir : store -> loc -> list string   (* the entries of a directory,
                                             in the order it yields them *)
}.

(** Characters that do not stand for themselves in a pattern. *)
Definition special (c : ascii) : bool :=
  Ascii.eqb c "*" || Ascii.eqb c "?" || Ascii.eqb c "[" || Ascii.eqb c "/".

Fixpoint literal (s : string) : bool :=
  match s with
  | EmptyString => true
  | String c s' => negb (special c) && literal s'
  end.

(** Does the whole of [name] match the pattern? Case matters, as on
    POSIX. *)
Fixpoint fnmatch (pat name : string) : bool :=
  match pat with
  | EmptyString =>
      match name with
      | EmptyString => true
      | String _ _ => false
      end
  | String c pat' =>
      if Ascii.eqb c "*" then
        (fix skip (n : string) : bool :=
           fnmatch pat' n
           || match n with
              | String _ n' => skip n'
              | EmptyString => false
              end) name
      else
        match name with
        | String d name' =>
            (Ascii.eqb c "?" || Ascii.eqb c d) && fnmatch pat' name'
        | EmptyString => false
        end
  end.

(** The names [Path.glob] yields for a pattern of one component, in the
    order of the listing; nothing when the path is not a directory. *)
Definition glob (e : genv) (f : store) (p : path) (pattern : string)
    : list string :=
  match namei f (if p_abs p then nil else gcwd e) (p_parts p) with
  | inr l =>
      match node_at f l with
      | Some Dir => List.filter (fnmatch pattern) (scandir e f l)
      | _ => nil
      end
  | inl _ => nil
  end.

(** The passes of the outer loop, whose variable the body ignores. *)
Fixpoint search_passes (e : genv) (f : store) (pseudo_path : path)
    (element pseudo_dir : string) (patterns : list string)
    : option string * list (level * gmessage) :=
  match patterns with
  | nil => (None, (WARNING, MsgNotFound element pseudo_dir) :: nil)
  | _ :: patterns' =>
      match glob e f pseudo_path (element +:+ "*.UPF") with
      | name :: _ => (Some name, (INFO, MsgFound element name) :: nil)
      | nil =>
          match glob e f pseudo_path (element +:+ "*.upf") with
          | name :: _ => (Some name, (INFO, MsgFound element name) :: nil)
          | nil => search_passes e f pseudo_path element pseudo_dir patterns'
          end
      end
  end.

(** The result, and what is logged. *)
Definition find_pseudopotential (e : genv) (f : store)
    (element pseudo_dir : string) : option string * list (level * gmessage) :=
  let pseudo_path := Path pseudo_dir in
  if negb (fs_exists f (if p_abs pseudo_path then nil else gcwd e)
             (p_parts pseudo_path))
  then (None, (WARNING, MsgNoDirectory pseudo_dir) :: nil)
  else
    search_passes e f pseudo_path element pseudo_dir
      ((element +:+ ".UPF") :: (element +:+ ".upf") :: nil).

(** A directory of pseudopotentials that lists a lower-case file first. *)
Definition fs_upf : store :=
  <[ "home" :: "u" :: "ps" :: "Cu.pbe.UPF" :: nil := File true (Text "") ]>
    (<[ "home" :: "u" :: "ps" :: "C.pbe.upf" :: nil := File true (Text "") ]>
       (<[ "home" :: "u" :: "ps" :: nil := Dir ]>
          (<[ "home" :: "u" :: nil := Dir ]> (<[ "home" :: nil := Dir ]> ∅)))).

Definition env_upf : genv :=
  {| gcwd := "home" :: "u" :: nil;
     scandir := fun _ _ => "C.pbe.upf" :: "Cu.pbe.UPF" :: nil |}.

(** A directory with nothing for the element. *)
Definition env_other : genv :=
  {| gcwd := "home" :: "u" :: nil;
     scandir := fun _ _ => "Si.pbe.UPF" :: "README" :: nil |}.

End Generator.

(** * Notions of the specification *)

(** A name that begins with [element] and ends in [suffix]. *)
Definition upf_name (element suffix name : string) : Prop :=
  exists mid, name = element +:+ mid +:+ suffix.

(** [occurs m t]: the text [m] occurs in [t]. *)
Definition occurs (m t : string) : Prop :=
  exists pre post, t = pre +:+ m +:+ post.

(** The program of a pattern without special characters. *)
Fixpoint lit (m : string) : Re.prog :=
  match m with
  | EmptyString => nil
  | String c m' => Re.Rep Re.One (Re.AChr c) :: lit m'
  end.

(** The text a pattern of the classifier stands for: the pattern itself,
    without the backslash of a quoted character. *)
Definition ERROR_MARKERS : list string :=
  "Error in routine" :: "MPI_ABORT" :: "forrtl: severe"
  :: "Maximum CPU time exceeded" :: "cannot open file" :: "ERROR" :: nil.

Definition SUCCESS_MARKERS : list string :=
  "convergence has been achieved" :: "JOB DONE." :: nil.

Definition has_marker (ms : list string) (t : string) : Prop :=
  exists m, In m ms /\ occurs m t.

(** A specification of an executable that is a path rather than a bare
    name: it starts at the root or holds a separator. *)
Definition path_like (s : string) : Prop :=
  (exists r, s = "/" +:+ r) \/ occurs "/" s.

(** Events that neither start a process nor touch the file store. *)
Definition is_probe (ev : event) : bool :=
  match ev with
  | EvLog _ _ | EvExists _ | EvOsExists _ | EvWhich _ => true
  | _ => false
  end.

(** The command line of a run. *)
Definition command (mpi_cmd : option (list string)) (pw_exec : string)
    (input_file : path) : list string :=
  (match mpi_cmd with Some l => l | None => nil end
   ++ pw_exec :: "-in" :: str input_file :: nil)%list.

(** The paths [main] works with. *)
Definition input_path_of (a : args) (e : env) : path :=
  {| p_abs := true;
     p_parts := fold_left kstep (p_parts (Path (input a)))
                  (origin e (Path (input a))) |}.

Definition run_dir_of (a : args) (e : env) : path :=
  if no_timestamp a then Path (run_dir a)
  else joinpath (Path (run_dir a))
         (Path (stem (input_path_of a e) +:+ "_" +:+ timestamp e)).

Definition output_path_of (a : args) (e : env) : path :=
  joinpath (run_dir_of a e)
    (Path (if truthy (out a) then default "" (out a)
           else stem (input_path_of a e) +:+ ".out")).

Definition error_path_of (a : args) (e : env) : path :=
  joinpath (run_dir_of a e) (Path (stem (input_path_of a e) +:+ ".err")).

(** [supervised a e s code s4]: started in [s], the program finds the
    deck and the executable, prepares the directories, and the supervisor
    returns [code], leaving the state [s4]. *)
Definition supervised (a : args) (e : env) (s : state) (code : Z) (s4 : state)
    : Prop :=
  exists (exe : string) (s1 s2 s3 : state),
    fs_exists (fs s) nil (p_parts (input_path_of a e)) = true
    /\ _find_pw_executable (pw a) e (emit (EvExists (input_path_of a e)) s)
       = (Ret (Some exe), s1)
    /\ exe <> ""
    /\ _ensure_output_dirs (input_path_of a e) e s1 = (Ret tt, s2)
    /\ mkdir_p (run_dir_of a e) e s2 = (Ret tt, s3)
    /\ run_pw (input_path_of a e) exe (output_path_of a e) (error_path_of a e)
         (parent (input_path_of a e)) (timeout a) (mpi a) e s3
       = (Ret code, s4).

(** ** Declarations in a deck *)

Fixpoint lower_str (s : string) : string :=
  match s with
  | EmptyString => ""
  | String c s' => String (lower c) (lower_str s')
  end.

Fixpoint all_chars (P : ascii -> bool) (s : string) : bool :=
  match s with
  | EmptyString => true
  | String c s' => P c && all_chars P s'
  end.

Definition head_is (P : ascii -> bool) (s : string) : bool :=
  match s with
  | String c _ => P c
  | EmptyString => false
  end.

(** Keys made of letters, digits and underscores, like the two keys the
    runner asks for. *)
Definition plain_char (c : ascii) : bool := is_alnum c || Ascii.eqb c "_".
Definition plain_key (key : string) : Prop := all_chars plain_char key = true.

Definition is_quote (c : ascii) : bool := Ascii.eqb c "'" || Ascii.eqb c dquote.

(** A character of a value: anything but a comma, a quote or white space. *)
Definition value_char (c : ascii) : bool :=
  negb (Ascii.eqb c "," || is_quote c || is_space c).

(** [declares key t v]: the text [t] starts with a declaration of [key]
    with the value [v]: the key in any letter case, white space, an equals
    sign, white space, at most one quote, and the value, which runs up to
    a comma, a quote, white space or the end of the text. *)
Definition declares (key t v : string) : Prop :=
  exists K ws1 ws2 q rest,
    t = K +:+ ws1 +:+ "=" +:+ ws2 +:+ q +:+ v +:+ rest
    /\ lower_str K = lower_str key
    /\ all_chars is_space ws1 = true
    /\ all_chars is_space ws2 = true
    /\ (q = "" \/ exists c, q = String c "" /\ is_quote c = true)
    /\ v <> ""
    /\ all_chars value_char v = true
    /\ head_is value_char rest = false.

(** The program of the text after the key. *)
Definition NAMELIST_TAIL : Re.prog :=
  Re.Rep Re.Star Re.ASpace
  :: Re.Rep Re.One (Re.AChr "=")
  :: Re.Rep Re.Star Re.ASpace
  :: Re.Rep Re.Opt (Re.AIn false (Re.IChr "'" :: Re.IChr dquote :: nil))
  :: Re.MarkOpen
  :: Re.Rep Re.Plus
       (Re.AIn true (Re.IChr "," :: Re.IChr "'" :: Re.IChr dquote :: Re.ISpace :: nil))
  :: Re.MarkClose :: nil.

(** [value_at key t]: what the pattern of [key] captures when matched at
    the start of [t]. *)
Definition value_at (key t : string) : option string :=
  match Re.exec true (lit key ++ NAMELIST_TAIL) t Re.no_marks with
  | Some (rest, mk) =>
      Re.group1 {| Re.m_from := t; Re.m_rest := rest; Re.m_marks := mk |}
  | None => None
  end.

(** The longest prefix of characters in [P], and what follows it. *)
Fixpoint takew (P : ascii -> bool) (s : string) : string :=
  match s with
  | String c s' => if P c then String c (takew P s') else ""
  | EmptyString => ""
  end.

Fixpoint dropw (P : ascii -> bool) (s : string) : string :=
  match s with
  | String c s' => if P c then dropw P s' else s
  | EmptyString => ""
  end.

(** Removal of the key, in any letter case, from the start of a text. *)
Fixpoint strip_ci (key s : string) : option string :=
  match key with
  | EmptyString => Some s
  | String k key' =>
      match s with
      | String c s' =>
          if Ascii.eqb (lower c) (lower k) then strip_ci key' s' else None
      | EmptyString => None
      end
  end.

(** A scanner for the text after the key, without backtracking: the
    value and the text after it. *)
Definition scan_tail (s : string) : option (string * string) :=
  match dropw is_space s with
  | String c s2 =>
      if Ascii.eqb c "=" then
        let s3 := dropw is_space s2 in
        let s4 := match s3 with
                  | String q r => if is_quote q then r else s3
                  | EmptyString => s3
                  end in
        if head_is value_char s4
        then Some (takew value_char s4, dropw value_char s4)
        else None
      else None
  | EmptyString => None
  end.

(** The value of the leftmost place of a text at which the pattern of
    [key] matches. *)
Fixpoint first_value (key s : string) : option string :=
  match value_at key s with
  | Some v => Some v
  | None =>
      match s with
      | String _ s' => first_value key s'
      | EmptyString => None
      end
  end.

(** ** Making directories *)

(** The location reached after the first [k] components of a path. *)
Definition loc_after (start : loc) (cs : list string) (k : nat) : loc :=
  fold_left kstep (firstn k cs) start.

(** [grows f f' start cs]: the store [f'] is [f] with directories added,
    all of them on the way of the path [cs]. *)
Definition grows (f f' : store) (start : loc) (cs : list string) : Prop :=
  forall l,
    node_at f' l = node_at f l
    \/ (node_at f l = None /\ node_at f' l = Some Dir
        /\ exists k, k <= length cs /\ l = loc_after start cs k).

(** What the manager does about the declared resource directory: one
    look, and a warning when nothing is there. *)
Definition pseudo_events (e : env) (f : store) (input_path : path)
    (content : string) : list event :=
  match _parse_namelist_value content "pseudo_dir" with
  | Some pv =>
      let pp := declared_path input_path pv in
      EvExists pp
      :: (if fs_exists f (origin e pp) (p_parts pp) then nil
          else EvLog WARNING (MsgPseudoNotFound pp) :: nil)
  | None => nil
  end.

(** * A sample world

    A user directory with one deck, a solver on the search path, and
    solvers of several temperaments. *)
Module Sample.

Definition nl : string := String (ascii_of_N 10) "".

Definition deck : string :=
  "&control" +:+ nl +:+ "  OUTDIR = './out/tmp/'," +:+ nl
  +:+ "  pseudo_dir='./ps' /" +:+ nl.

Definition fs0 : store :=
  <[ "home" :: "u" :: "si.in" :: nil := File true (Text deck) ]>
    (<[ "home" :: "u" :: nil := Dir ]> (<[ "home" :: nil := Dir ]> ∅)).

(** A solver that runs for [run_for] ticks and prints [said]. *)
Definition solver_of (run_for : option Z) (heeds_term : option Z)
    (said : string) : solver :=
  {| lifetime := run_for; status := 0; term_delay := heeds_term;
     term_status := (-15); stdout_at := fun _ => Text said;
     stderr_at := fun _ => Text "" |}.

Definition env_of (b : solver) : env :=
  {| cwd := "home" :: "u" :: nil;
     which := fun s => if String.eqb s "pw.x" then Some "/usr/bin/pw.x" else None;
     launch := fun _ _ _ => Some b;
     refuses := fun _ _ => None;
     timestamp := "20260101_000000" |}.

Definition st0 : state := {| fs := fs0; trace := nil |}.

Definition args0 : args :=
  {| input := "si.in"; pw := "pw.x"; mpi := None; timeout := Some 1%Z;
     run_dir := "qe_runs"; out := None; no_timestamp := true |}.

Definition out0 : path := Path "qe_runs/si.out".

(** Solvers: one that hangs and ignores the termination signal, one that
    finishes after half a second. *)
Definition stubborn (said : string) : solver := solver_of None None said.
Definition quick (said : string) : solver := solver_of (Some 500%Z) (Some 0%Z) said.

(** The state after a run that left [said] in the output sink. *)
Definition st_said (said : content) : state :=
  {| fs := <[ "home" :: "u" :: "qe_runs" :: "si.out" :: nil := File true said ]>
             (<[ "home" :: "u" :: "qe_runs" :: nil := Dir ]> fs0);
     trace := nil |}.

End Sample.

(** * Further cases of the sample world *)
Module Cases.

(** An environment in which no command can be started. *)
Definition env_no_launch : env :=
  {| cwd := "home" :: "u" :: nil;
     which := fun _ => None;
     launch := fun _ _ _ => None;
     refuses := fun _ _ => None;
     timestamp := "20260101_000000" |}.

(** A deck whose bytes the codec rejects. *)
Definition st_undecodable : state :=
  {| fs := <[ "home" :: "u" :: "si.in" :: nil := File true (Undecodable "outdir = x") ]>
             Sample.fs0;
     trace := nil |}.


(** A deck that declares one directory for both purposes. *)
Definition deck_shared : string :=
  "outdir = 'work'," +:+ Sample.nl +:+ "pseudo_dir = 'work'" +:+ Sample.nl.

Definition st_shared : state :=
  {| fs := <[ "home" :: "u" :: "si.in" :: nil := File true (Text deck_shared) ]>
             Sample.fs0;
     trace := nil |}.



End Cases.

(** * Properties *)

(** ** Text *)

Lemma sapp_nil_l (s : string) : "" +:+ s = s.
Proof. reflexivity. Qed.

Lemma sapp_cons (c : ascii) (s t : string) :
  String c s +:+ t = String c (s +:+ t).
Proof. reflexivity. Qed.

Lemma sapp_nil_r (s : string) : s +:+ "" = s.
Proof. induction s as [|c s IH]; [reflexivity|]. now rewrite sapp_cons, IH. Qed.

Lemma sapp_assoc (s t u : string) : (s +:+ t) +:+ u = s +:+ t +:+ u.
Proof.
  induction s as [|c s IH]; [reflexivity|]. now rewrite !sapp_cons, IH.
Qed.

Lemma slength_app (s t : string) :
  String.length (s +:+ t) = String.length s + String.length t.
Proof.
  induction s as [|c s IH]; [reflexivity|]. rewrite sapp_cons. simpl. now rewrite IH.
Qed.

(** ** Literal patterns *)

Lemma exec_lit_app (m rest : string) (mk : Re.marks) :
  Re.exec false (lit m) (m +:+ rest) mk = Some (rest, mk).
Proof.
  induction m as [|c m IH]; [reflexivity|].
  rewrite sapp_cons. simpl. unfold Re.chr_match. now rewrite Ascii.eqb_refl.
Qed.

Lemma exec_lit_inv (m s rest : string) (mk mk' : Re.marks) :
  Re.exec false (lit m) s mk = Some (rest, mk') -> s = m +:+ rest /\ mk' = mk.
Proof.
  revert s. induction m as [|c m IH]; intros s H.
  - simpl in H. now inversion H.
  - destruct s as [|d s]; simpl in H; [discriminate|].
    unfold Re.chr_match in H. destruct (Ascii.eqb_spec d c) as [->|]; [|discriminate].
    apply IH in H as [-> ->]. now rewrite sapp_cons.
Qed.

Lemma search_lit_occurs (m t : string) :
  is_Some (Re.search false (lit m) t) <-> occurs m t.
Proof.
  split.
  - induction t as [|c t IH]; simpl; intros H.
    + destruct (Re.exec false (lit m) "" Re.no_marks) as [[rest mk]|] eqn:E.
      * apply exec_lit_inv in E as [E _]. exists "", rest. now rewrite sapp_nil_l.
      * now destruct H.
    + destruct (Re.exec false (lit m) (String c t) Re.no_marks) as [[rest mk]|] eqn:E.
      * apply exec_lit_inv in E as [E _]. exists "", rest. now rewrite sapp_nil_l.
      * destruct (IH H) as (pre & post & ->). exists (String c pre), post.
        now rewrite sapp_cons.
  - intros (pre & post & ->). induction pre as [|c pre IH].
    + rewrite sapp_nil_l. destruct (m +:+ post) eqn:E; simpl; rewrite <- E;
        now rewrite exec_lit_app.
    + rewrite sapp_cons. simpl.
      destruct (Re.exec false (lit m) _ Re.no_marks) as [[rest mk]|]; [eauto|exact IH].
Qed.

Lemma compile_error_patterns :
  map Re.compile ERROR_PATTERNS = map (fun m => Some (lit m)) ERROR_MARKERS.
Proof. reflexivity. Qed.

Lemma compile_success_patterns :
  map Re.compile SUCCESS_PATTERNS = map (fun m => Some (lit m)) SUCCESS_MARKERS.
Proof. reflexivity. Qed.

Lemma re_search_lit (pat m t : string) :
  Re.compile pat = Some (lit m) -> re_search pat t = true <-> occurs m t.
Proof.
  intros H. unfold re_search. rewrite H, bool_decide_eq_true.
  apply search_lit_occurs.
Qed.

Lemma existsb_patterns (pats ms : list string) (t : string) :
  map Re.compile pats = map (fun m => Some (lit m)) ms ->
  existsb (fun pat => re_search pat t) pats = true <->
  exists m, In m ms /\ occurs m t.
Proof.
  revert ms. induction pats as [|pat pats IH]; intros [|m ms] H; try discriminate.
  - simpl. split; [discriminate|]. now intros (? & [] & _).
  - simpl in H. injection H as Hc Hr. simpl. rewrite orb_true_iff, (IH ms Hr).
    rewrite (re_search_lit pat m t Hc). split.
    + intros [Ho|(m' & Hin & Ho)]; eauto.
    + intros (m' & [<-|Hin] & Ho); eauto.
Qed.

(** ** The outcome classifier *)

Lemma read_lenient_error (fs : store) (start : loc) (cs : list string) (x : exn) :
  fs_read_text false fs start cs = inl x -> exists o, x = OSError o.
Proof.
  unfold fs_read_text. intros H.
  destruct (namei fs start cs) as [o|l]; [inversion H; eauto|].
  destruct (node_at fs l) as [[|[] []]|]; inversion H; eauto.
Qed.

Lemma detect_read (output_path : path) (e : env) (s : state) (t : string) :
  fs_read_text false (fs s) (origin e output_path) (p_parts output_path) = inr t ->
  _detect_qe_errors output_path e s
  = (Ret (existsb (fun pat => re_search pat t) ERROR_PATTERNS,
          existsb (fun pat => re_search pat t) SUCCESS_PATTERNS),
     emit (EvReadText output_path) s).
Proof.
  intros H. unfold _detect_qe_errors, try_OSError, read_text. now rewrite H.
Qed.

(** C4. Each flag of the classification is the presence of a marker of
    its own set in the text read: a success marker and no error marker
    give (false, true), an error marker gives has_error whatever else the
    text holds, and neither flag looks at the other set. *)
Theorem detect_presence (output_path : path) (e : env) (s : state) (t : string) :
  fs_read_text false (fs s) (origin e output_path) (p_parts output_path) = inr t ->
  exists has_error has_success,
    _detect_qe_errors output_path e s
    = (Ret (has_error, has_success), emit (EvReadText output_path) s)
    /\ (has_error = true <-> has_marker ERROR_MARKERS t)
    /\ (has_success = true <-> has_marker SUCCESS_MARKERS t)
    /\ (has_marker SUCCESS_MARKERS t -> ~ has_marker ERROR_MARKERS t ->
        (has_error, has_success) = (false, true))
    /\ (has_marker ERROR_MARKERS t -> has_error = true).
Proof.
  intros H. rewrite (detect_read _ _ _ _ H).
  pose proof (existsb_patterns _ _ t compile_error_patterns) as He.
  pose proof (existsb_patterns _ _ t compile_success_patterns) as Hs.
  fold (has_marker ERROR_MARKERS t) in He. fold (has_marker SUCCESS_MARKERS t) in Hs.
  eexists _, _. split; [reflexivity|]. split; [exact He|]. split; [exact Hs|].
  split.
  - intros Hy Hn. apply Hs in Hy. rewrite Hy. f_equal.
    destruct (existsb _ ERROR_PATTERNS); [|reflexivity].
    exfalso. apply Hn, He. reflexivity.
  - intros Hy. now apply He.
Qed.

Lemma detect_presence_witness :
  exists has_error has_success,
    _detect_qe_errors Sample.out0 (Sample.env_of (Sample.solver_of None None ""))
      (Sample.st_said (Text "     JOB DONE."))
    = (Ret (has_error, has_success),
       emit (EvReadText Sample.out0) (Sample.st_said (Text "     JOB DONE.")))
    /\ (has_error = true <-> has_marker ERROR_MARKERS "     JOB DONE.")
    /\ (has_success = true <-> has_marker SUCCESS_MARKERS "     JOB DONE.")
    /\ (has_marker SUCCESS_MARKERS "     JOB DONE." ->
        ~ has_marker ERROR_MARKERS "     JOB DONE." ->
        (has_error, has_success) = (false, true))
    /\ (has_marker ERROR_MARKERS "     JOB DONE." -> has_error = true).
Proof.
  apply (detect_presence Sample.out0 (Sample.env_of (Sample.solver_of None None ""))
           (Sample.st_said (Text "     JOB DONE.")) "     JOB DONE.").
  vm_compute. reflexivity.
Defined.

(** C5. An output file that is empty, or that cannot be read, is
    classified (false, false); the classifier returns normally. *)
Theorem detect_empty_or_unreadable (output_path : path) (e : env) (s : state) :
  fs_read_text false (fs s) (origin e output_path) (p_parts output_path) = inr ""
  \/ (exists x, fs_read_text false (fs s) (origin e output_path)
                  (p_parts output_path) = inl x) ->
  _detect_qe_errors output_path e s
  = (Ret (false, false), emit (EvReadText output_path) s).
Proof.
  intros [H|[x H]].
  - now rewrite (detect_read _ _ _ _ H).
  - destruct (read_lenient_error _ _ _ _ H) as [o ->].
    unfold _detect_qe_errors, try_OSError, read_text. now rewrite H.
Qed.

Lemma detect_empty_or_unreadable_witness :
  _detect_qe_errors Sample.out0 (Sample.env_of (Sample.solver_of None None ""))
    Sample.st0
  = (Ret (false, false), emit (EvReadText Sample.out0) Sample.st0).
Proof.
  apply detect_empty_or_unreadable. right. eexists. vm_compute. reflexivity.
Defined.

(** ** Stepping through the monad *)

Lemma bind_ret {A B} (m : M A) (k : A -> M B) (e : env) (s s' : state) (a : A) :
  m e s = (Ret a, s') -> bind m k e s = k a e s'.
Proof. intros H. unfold bind. now rewrite H. Qed.

Lemma bind_raise {A B} (m : M A) (k : A -> M B) (e : env) (s s' : state) (x : exn) :
  m e s = (Raise x, s') -> bind m k e s = (Raise x, s').
Proof. intros H. unfold bind. now rewrite H. Qed.

Lemma bind_hang {A B} (m : M A) (k : A -> M B) (e : env) (s s' : state) :
  m e s = (Hang, s') -> bind m k e s = (Hang, s').
Proof. intros H. unfold bind. now rewrite H. Qed.

Lemma run_result {A} (m : M A) (e : env) (s : state) (a : A) :
  fst (m e s) = Ret a -> m e s = (Ret a, snd (m e s)).
Proof. destruct (m e s) as [r s']. cbn. now intros ->. Qed.

Lemma emit_trace (ev : event) (s : state) :
  trace (emit ev s) = (trace s ++ ev :: nil)%list.
Proof. reflexivity. Qed.

Lemma app_cons_assoc {A} (l : list A) (x : A) (l' : list A) :
  ((l ++ x :: nil) ++ l')%list = (l ++ x :: l')%list.
Proof. now rewrite <- (assoc_L (++)). Qed.

(** [mstep tac]: run the first command of the program in the goal, its
    result being established by [tac]. *)
Ltac mstep tac := cbv beta iota; erewrite bind_ret; [|solve [tac]].

(** ** The executable resolver *)

Lemma char_in_occurs (c : ascii) (s : string) :
  char_in c s = true <-> occurs (String c "") s.
Proof.
  split.
  - induction s as [|d s IH]; simpl; [discriminate|].
    rewrite orb_true_iff. intros [H|H].
    + apply Ascii.eqb_eq in H as ->. now exists "", s.
    + destruct (IH H) as (pre & post & ->). now exists (String d pre), post.
  - intros (pre & post & ->). induction pre as [|d pre IH].
    + rewrite sapp_nil_l, sapp_cons. simpl. now rewrite Ascii.eqb_refl.
    + rewrite sapp_cons. simpl. now rewrite IH, orb_true_r.
Qed.

Lemma path_like_spec (s : string) :
  isabs s || char_in "/" s = true <-> path_like s.
Proof.
  unfold path_like. rewrite orb_true_iff, char_in_occurs. split.
  - intros [H|H]; [left|now right].
    destruct s as [|c s]; [discriminate|]. simpl in H.
    apply Ascii.eqb_eq in H as ->. now exists s.
  - intros [[r ->]|H]; [left|now right]. reflexivity.
Qed.

(** C6. A specification that is absolute or holds a separator is
    returned as it is exactly when that path exists, and is not found
    otherwise, without any search-path lookup; a bare name is looked up
    on the search path. *)
Theorem find_pw_executable_spec (pw_cmd : string) (e : env) (s : state) :
  (path_like pw_cmd ->
   exists r,
     _find_pw_executable pw_cmd e s = (Ret r, emit (EvOsExists pw_cmd) s)
     /\ (r = Some pw_cmd <-> fs_exists_str (fs s) (cwd e) pw_cmd = true)
     /\ (fs_exists_str (fs s) (cwd e) pw_cmd = false -> r = None))
  /\ (~ path_like pw_cmd ->
      _find_pw_executable pw_cmd e s = (Ret (which e pw_cmd), emit (EvWhich pw_cmd) s)).
Proof.
  unfold _find_pw_executable. split; intros H.
  - apply path_like_spec in H. rewrite H.
    unfold bind, os_path_exists, ret.
    destruct (fs_exists_str (fs s) (cwd e) pw_cmd); eexists;
      (split; [reflexivity|]); split; try split; try discriminate; auto.
  - destruct (isabs pw_cmd || char_in "/" pw_cmd) eqn:E; [|reflexivity].
    now apply path_like_spec in E.
Qed.

Lemma find_pw_executable_probe (pw_cmd : string) (e : env) (s : state) :
  exists r ev,
    is_probe ev = true /\
    forall s', fs s' = fs s -> _find_pw_executable pw_cmd e s' = (Ret r, emit ev s').
Proof.
  unfold _find_pw_executable.
  destruct (isabs pw_cmd || char_in "/" pw_cmd).
  - exists (if fs_exists_str (fs s) (cwd e) pw_cmd then Some pw_cmd else None),
      (EvOsExists pw_cmd).
    split; [reflexivity|]. intros s' Hs'.
    unfold bind, os_path_exists, ret. now rewrite Hs'.
  - exists (which e pw_cmd), (EvWhich pw_cmd). split; [reflexivity|]. reflexivity.
Qed.

(** C7. When the executable cannot be resolved the program ends with
    exit code 1; up to then it has only looked and logged: no process was
    started, no sink was opened and the file store is as it was. *)
Theorem main_unresolved (a : args) (e : env) (s : state) (r : option string) :
  fst (_find_pw_executable (pw a) e s) = Ret r ->
  truthy r = false ->
  exists s' evs,
    main a e s = (Ret 1%Z, s')
    /\ fs s' = fs s
    /\ trace s' = (trace s ++ evs)%list
    /\ forallb is_probe evs = true.
Proof.
  intros Hr Ht.
  destruct (find_pw_executable_probe (pw a) e s) as (r' & ev & Hev & Hfind).
  rewrite (Hfind s eq_refl) in Hr. simpl in Hr. injection Hr as ->.
  unfold main.
  mstep ltac:(unfold resolve; reflexivity).
  mstep ltac:(unfold path_exists; reflexivity).
  destruct (fs_exists _ _ _); cbn [negb].
  - mstep ltac:(apply Hfind; reflexivity).
    rewrite Ht. cbn [negb].
    eexists _, (_ :: _ :: _ :: nil).
    split; [reflexivity|]. split; [reflexivity|].
    split; [cbn; now rewrite !app_cons_assoc|].
    cbn. now rewrite Hev.
  - eexists _, (_ :: _ :: nil).
    split; [reflexivity|]. split; [reflexivity|].
    split; [cbn; now rewrite !app_cons_assoc|]. reflexivity.
Qed.

Lemma main_unresolved_witness :
  exists s' evs,
    main {| input := "si.in"; pw := "./pw.x"; mpi := None; timeout := None;
            run_dir := "qe_runs"; out := None; no_timestamp := false |}
      (Sample.env_of (Sample.solver_of None None "")) Sample.st0
    = (Ret 1%Z, s')
    /\ fs s' = fs Sample.st0
    /\ trace s' = (trace Sample.st0 ++ evs)%list
    /\ forallb is_probe evs = true.
Proof.
  apply (main_unresolved _ _ _ None); vm_compute; reflexivity.
Defined.

(** ** The run directory manager *)




(** ** The process supervisor *)

Lemma proc_wait_expired (t : option Z) (p p' : proc) :
  proc_wait t p = (Expired, p') ->
  gone p' = false /\ returncode p = None
  /\ exists tt, t = Some tt /\ (clock p' = clock p + Z.max 0 (ticks tt))%Z.
Proof.
  unfold proc_wait.
  destruct (match t with Some t' => float_overflows t' | None => false end);
    [discriminate|].
  destruct (returncode p) eqn:Hrc; [discriminate|].
  destruct (exit_of p) as [[e rc]|] eqn:He, t as [tt|]; try discriminate.
  - destruct (Z.leb_spec e (clock p + Z.max 0 (ticks tt))); [discriminate|].
    intros [= <-]. split; [|eauto].
    unfold gone, exit_of in *. cbn. rewrite He.
    apply Z.leb_gt. cbn. lia.
  - intros [= <-]. split; [|eauto].
    unfold gone, exit_of in *. cbn. now rewrite He.
Qed.

Lemma proc_wait_exited (t : Z) (p p' : proc) (rc : Z) :
  proc_wait (Some t) p = (Exited rc, p') ->
  gone p' = true /\ (clock p' <= clock p + Z.max 0 (ticks t))%Z.
Proof.
  unfold proc_wait. destruct (float_overflows t); [discriminate|].
  destruct (returncode p) eqn:Hrc.
  - intros [= <- <-]. unfold gone. rewrite Hrc. split; [reflexivity|lia].
  - destruct (exit_of p) as [[e rc']|] eqn:He; [|discriminate].
    destruct (Z.leb_spec e (clock p + Z.max 0 (ticks t))); [|discriminate].
    intros [= <- <-]. split; [reflexivity|]. cbn. lia.
Qed.

Lemma proc_wait_some_blocked (t : Z) (p p' : proc) :
  proc_wait (Some t) p <> (Blocked, p').
Proof.
  unfold proc_wait. destruct (float_overflows t); [discriminate|].
  destruct (returncode p); [discriminate|].
  destruct (exit_of p) as [[e rc']|]; [|discriminate].
  now destruct (Z.leb e _).
Qed.

Lemma float_overflows_spec (t : Z) :
  float_overflows t = true <-> (float_limit <= Z.abs t)%Z.
Proof. unfold float_overflows. apply Z.leb_le. Qed.

(** A wait overflows exactly when its timeout has no double. *)
Lemma proc_wait_overflow (t : option Z) (p p' : proc) :
  proc_wait t p = (Overflow, p') <->
  p' = p /\ exists t', t = Some t' /\ float_overflows t' = true.
Proof.
  unfold proc_wait. destruct t as [t'|].
  - destruct (float_overflows t') eqn:Hover.
    + split; [intros [= <-]; eauto|now intros [-> _]].
    + split.
      * destruct (returncode p); [discriminate|].
        destruct (exit_of p) as [[e rc]|]; [|discriminate].
        now destruct (Z.leb e _).
      * intros [_ (t'' & [= <-] & H)]. congruence.
  - split.
    + destruct (returncode p); [discriminate|].
      now destruct (exit_of p) as [[e rc]|].
    + intros [_ (t'' & H & _)]. discriminate.
Qed.

Lemma proc_terminate_clock (p : proc) : clock (proc_terminate p) = clock p.
Proof. unfold proc_terminate. now destruct (gone p). Qed.

(** C3. A run whose wait expires at the configured timeout: the
    supervisor sends the termination signal, waits once more, for at
    most ten seconds, sends the kill signal exactly when the process is
    still running after that wait, and returns 124 whatever the
    process's own exit status. *)
Theorem run_pw_timeout (input_file : path) (pw_exec : string)
    (output_path error_path dir : path) (timeout : option Z)
    (mpi_cmd : option (list string)) (e : env) (s : state)
    (f1 f2 : store) (lo le : loc) (b : solver) (p1 : proc) :
  fs_open_w (fs s) (origin e output_path) (p_parts output_path) = inr (f1, lo) ->
  fs_open_w f1 (origin e error_path) (p_parts error_path) = inr (f2, le) ->
  launch e f2 (command mpi_cmd pw_exec input_file) dir = Some b ->
  proc_wait timeout (Popen b) = (Expired, p1) ->
  let r2 := fst (proc_wait (Some 10%Z) (proc_terminate p1)) in
  let p2 := snd (proc_wait (Some 10%Z) (proc_terminate p1)) in
  exists s',
    run_pw input_file pw_exec output_path error_path dir timeout mpi_cmd e s
    = (Ret 124%Z, s')
    /\ trace s'
       = (trace s
          ++ EvLog INFO (MsgRunning (command mpi_cmd pw_exec input_file))
             :: EvOpen output_path :: EvOpen error_path
             :: EvSpawn (command mpi_cmd pw_exec input_file) dir
             :: EvWait timeout Expired
             :: EvSignal SIGTERM
             :: EvWait (Some 10%Z) r2
             :: (if gone p2 then nil else EvSignal SIGKILL :: nil)
          ++ EvLog ERROR (MsgTimedOut timeout) :: nil)%list
    /\ (clock p2 <= clock p1 + ticks 10)%Z
    /\ (gone p2 = false <-> r2 = Expired).
Proof.
  intros Ho He Hl Hw r2 p2.
  destruct (proc_wait_expired _ _ _ Hw) as (Hg1 & _ & _).
  assert (Hrun :
    run_pw input_file pw_exec output_path error_path dir timeout mpi_cmd e s
    = bind (wait (Some 10%Z) (proc_terminate p1))
        (fun w2 =>
           bind (match w2 with
                 | (Expired, process) => kill process
                 | (_, process) => ret process
                 end)
             (fun process =>
                bind (log ERROR (MsgTimedOut timeout))
                  (fun _ => bind (sync_sinks lo le process) (fun _ => ret 124%Z))))
        e (emit (EvSignal SIGTERM)
             (emit (EvWait timeout Expired)
                (emit (EvSpawn (command mpi_cmd pw_exec input_file) dir)
                   (emit (EvOpen error_path)
                      (set_fs f2
                         (emit (EvOpen output_path)
                            (set_fs f1
                               (emit (EvLog INFO
                                        (MsgRunning (command mpi_cmd pw_exec input_file)))
                                  s))))))))).
  { unfold run_pw. cbv zeta. fold (command mpi_cmd pw_exec input_file).
    mstep ltac:(reflexivity).
    mstep ltac:(unfold open_w; cbn [fs emit]; rewrite Ho; reflexivity).
    mstep ltac:(unfold open_w; cbn [fs emit set_fs]; rewrite He; reflexivity).
    mstep ltac:(unfold spawn; cbn [fs emit set_fs]; rewrite Hl; reflexivity).
    mstep ltac:(unfold wait; rewrite Hw; reflexivity).
    mstep ltac:(unfold terminate; rewrite Hg1; reflexivity).
    reflexivity. }
  rewrite Hrun. clear Hrun.
  subst r2 p2.
  destruct (proc_wait (Some 10%Z) (proc_terminate p1)) as [r p] eqn:Hw2.
  cbn [fst snd].
  destruct r as [rc| | |].
  - destruct (proc_wait_exited _ _ _ _ Hw2) as [Hg Hc].
    rewrite proc_terminate_clock in Hc.
    eexists. split.
    { mstep ltac:(unfold wait; rewrite Hw2; reflexivity). reflexivity. }
    rewrite Hg. split.
    + cbn. now rewrite !app_cons_assoc.
    + split; [exact Hc|]. split; discriminate.
  - destruct (proc_wait_expired _ _ _ Hw2) as (Hg & _ & tt & [= <-] & Hc).
    rewrite proc_terminate_clock in Hc.
    eexists. split.
    { mstep ltac:(unfold wait; rewrite Hw2; reflexivity).
      mstep ltac:(unfold kill; rewrite Hg; reflexivity). reflexivity. }
    rewrite Hg. split.
    + cbn. now rewrite !app_cons_assoc.
    + split; [rewrite Hc; change (ticks 10) with 10000%Z; lia|].
      split; reflexivity.
  - now apply proc_wait_some_blocked in Hw2.
  - apply proc_wait_overflow in Hw2 as [_ (t' & [= <-] & Hover)]. discriminate.
Qed.

Lemma run_pw_timeout_witness :
  exists s',
    run_pw (Path "/home/u/si.in") "/usr/bin/pw.x" (Path "si.out") (Path "si.err")
      (Path "/home/u") (Some 1%Z) None (Sample.env_of (Sample.stubborn "")) Sample.st0
    = (Ret 124%Z, s')
    /\ In (EvSignal SIGKILL) (trace s').
Proof.
  destruct (run_pw_timeout (Path "/home/u/si.in") "/usr/bin/pw.x" (Path "si.out")
              (Path "si.err") (Path "/home/u") (Some 1%Z) None
              (Sample.env_of (Sample.stubborn "")) Sample.st0
              (<[ "home" :: "u" :: "si.out" :: nil := File true (Text "") ]> Sample.fs0)
              (<[ "home" :: "u" :: "si.err" :: nil := File true (Text "") ]>
                 (<[ "home" :: "u" :: "si.out" :: nil := File true (Text "") ]> Sample.fs0))
              ("home" :: "u" :: "si.out" :: nil) ("home" :: "u" :: "si.err" :: nil)
              (Sample.stubborn "")
              (snd (proc_wait (Some 1%Z) (Popen (Sample.stubborn "")))))
    as (s' & Hrun & Htr & _); [vm_compute; reflexivity ..|].
  exists s'. split; [exact Hrun|]. rewrite Htr. vm_compute. tauto.
Defined.

(** ** The exit code of the program *)

Lemma main_supervised (a : args) (e : env) (s s4 s5 : state) (code : Z)
    (has_error has_success : bool) :
  supervised a e s code s4 ->
  _detect_qe_errors (output_path_of a e) e s4 = (Ret (has_error, has_success), s5) ->
  fst (main a e s) = Ret (if has_error then 2%Z else code).
Proof.
  intros (exe & s1 & s2 & s3 & Hin & Hfind & Hexe & Hdirs & Hmk & Hrun) Hdet.
  unfold main.
  mstep ltac:(unfold resolve; reflexivity).
  fold (input_path_of a e).
  mstep ltac:(unfold path_exists; cbn [origin p_abs input_path_of]; rewrite Hin;
              reflexivity).
  cbn [negb].
  mstep ltac:(exact Hfind).
  assert (Ht : truthy (Some exe) = true).
  { unfold truthy. now apply negb_true_iff, String.eqb_neq. }
  rewrite Ht. cbn [negb default id from_option].
  mstep ltac:(exact Hdirs).
  mstep ltac:(reflexivity).
  fold (run_dir_of a e). fold (output_path_of a e). fold (error_path_of a e).
  mstep ltac:(exact Hmk).
  mstep ltac:(exact Hrun).
  mstep ltac:(exact Hdet).
  destruct has_error; [reflexivity|]. now destruct has_success.
Qed.

(** C2. Once the supervisor has returned, a classification with
    has_error set makes the exit code 2, whatever the supervisor returned
    and whether or not a success marker was found as well. *)
Theorem main_error_dominates (a : args) (e : env) (s s4 : state) (code : Z)
    (has_success : bool) :
  supervised a e s code s4 ->
  fst (_detect_qe_errors (output_path_of a e) e s4) = Ret (true, has_success) ->
  fst (main a e s) = Ret 2%Z.
Proof.
  intros Hsup Hdet.
  destruct (_detect_qe_errors (output_path_of a e) e s4) as [r s5] eqn:E.
  cbn [fst] in Hdet. subst r.
  exact (main_supervised a e s s4 s5 code true has_success Hsup E).
Qed.

Lemma sample_run_with_error :
  exists s4,
    supervised Sample.args0
      (Sample.env_of (Sample.quick "Error in routine c_bands.   JOB DONE."))
      Sample.st0 0%Z s4
    /\ fst (_detect_qe_errors
              (output_path_of Sample.args0
                 (Sample.env_of (Sample.quick "Error in routine c_bands.   JOB DONE.")))
              (Sample.env_of (Sample.quick "Error in routine c_bands.   JOB DONE."))
              s4)
       = Ret (true, true).
Proof.
  eexists. split.
  - unfold supervised. do 4 eexists.
    split; [reflexivity|].
    split; [apply run_result; vm_compute; reflexivity|].
    split; [discriminate|].
    split; [apply run_result; vm_compute; reflexivity|].
    split; apply run_result; vm_compute; reflexivity.
  - vm_compute. reflexivity.
Qed.

Lemma main_error_dominates_witness :
  fst (main Sample.args0
         (Sample.env_of (Sample.quick "Error in routine c_bands.   JOB DONE."))
         Sample.st0)
  = Ret 2%Z.
Proof.
  destruct sample_run_with_error as (s4 & Hsup & Hdet).
  exact (main_error_dominates _ _ _ s4 0%Z true Hsup Hdet).
Defined.

Lemma detect_total (output_path : path) (e : env) (s : state) :
  exists has_error has_success,
    _detect_qe_errors output_path e s
    = (Ret (has_error, has_success), emit (EvReadText output_path) s).
Proof.
  destruct (fs_read_text false (fs s) (origin e output_path) (p_parts output_path))
    as [x|t] eqn:E.
  - destruct (read_lenient_error _ _ _ _ E) as [o ->].
    exists false, false. unfold _detect_qe_errors, try_OSError, read_text.
    now rewrite E.
  - eexists _, _. apply detect_read. exact E.
Qed.

(** C1, as stated, fails: a run that timed out, so that the supervisor
    returned 124, and whose captured output holds an error marker ends
    with exit code 2. *)
Lemma main_timeout_counterexample :
  (exists s4,
     supervised Sample.args0 (Sample.env_of (Sample.stubborn "ERROR")) Sample.st0
       124%Z s4
     /\ In (EvWait (Some 1%Z) Expired) (trace s4))
  /\ fst (main Sample.args0 (Sample.env_of (Sample.stubborn "ERROR")) Sample.st0)
     = Ret 2%Z.
Proof.
  split; [|vm_compute; reflexivity].
  eexists. split.
  - unfold supervised. do 4 eexists.
    split; [reflexivity|].
    split; [apply run_result; vm_compute; reflexivity|].
    split; [discriminate|].
    split; [apply run_result; vm_compute; reflexivity|].
    split; apply run_result; vm_compute; reflexivity.
  - vm_compute. tauto.
Qed.

(** C1, amended. When the supervisor has returned the sentinel 124, the
    exit code of the program is 124 if the classifier reports no error
    for the captured output, and 2 if it reports one. *)
Theorem main_timeout_exit_code (a : args) (e : env) (s s4 : state) :
  supervised a e s 124%Z s4 ->
  exists has_error has_success,
    fst (_detect_qe_errors (output_path_of a e) e s4)
    = Ret (has_error, has_success)
    /\ fst (main a e s) = Ret (if has_error then 2%Z else 124%Z).
Proof.
  intros Hsup.
  destruct (detect_total (output_path_of a e) e s4) as (he & hs & Hdet).
  exists he, hs. rewrite Hdet. split; [reflexivity|].
  exact (main_supervised a e s s4 _ 124%Z he hs Hsup Hdet).
Qed.

Lemma sample_run_timed_out :
  exists s4,
    supervised Sample.args0 (Sample.env_of (Sample.stubborn "JOB DONE.")) Sample.st0
      124%Z s4.
Proof.
  unfold supervised. do 5 eexists.
  split; [reflexivity|].
  split; [apply run_result; vm_compute; reflexivity|].
  split; [discriminate|].
  split; [apply run_result; vm_compute; reflexivity|].
  split; apply run_result; vm_compute; reflexivity.
Qed.

Lemma main_timeout_exit_code_witness :
  exists s4 has_error has_success,
    fst (_detect_qe_errors
           (output_path_of Sample.args0 (Sample.env_of (Sample.stubborn "JOB DONE.")))
           (Sample.env_of (Sample.stubborn "JOB DONE.")) s4)
    = Ret (has_error, has_success)
    /\ fst (main Sample.args0 (Sample.env_of (Sample.stubborn "JOB DONE.")) Sample.st0)
       = Ret (if has_error then 2%Z else 124%Z).
Proof.
  destruct sample_run_timed_out as [s4 Hsup].
  exists s4. exact (main_timeout_exit_code _ _ _ s4 Hsup).
Defined.

(** ** The directory-declaration extractor *)

Ltac by_cases_on_char c :=
  destruct c as [[] [] [] [] [] [] [] []]; try reflexivity; try discriminate.

Lemma match_equals (c : ascii) :
  Re.atom_match true (Re.AChr "=") c = Ascii.eqb c "=".
Proof. by_cases_on_char c. Qed.

Lemma match_quote (c : ascii) :
  Re.atom_match true (Re.AIn false (Re.IChr "'" :: Re.IChr dquote :: nil)) c
  = is_quote c.
Proof. by_cases_on_char c. Qed.

Lemma match_value (c : ascii) :
  Re.atom_match true
    (Re.AIn true (Re.IChr "," :: Re.IChr "'" :: Re.IChr dquote :: Re.ISpace :: nil)) c
  = value_char c.
Proof. by_cases_on_char c. Qed.

Lemma space_not_equals (c : ascii) : is_space c = true -> Ascii.eqb c "=" = false.
Proof. by_cases_on_char c. Qed.

Lemma space_not_quote (c : ascii) : is_space c = true -> is_quote c = false.
Proof. by_cases_on_char c. Qed.

Lemma space_not_value (c : ascii) : is_space c = true -> value_char c = false.
Proof. by_cases_on_char c. Qed.

Lemma quote_not_value (c : ascii) : is_quote c = true -> value_char c = false.
Proof. by_cases_on_char c. Qed.

Lemma takew_dropw (P : ascii -> bool) (s : string) :
  takew P s +:+ dropw P s = s.
Proof.
  induction s as [|c s IH]; [reflexivity|]. simpl.
  destruct (P c); [|reflexivity]. now rewrite sapp_cons, IH.
Qed.

Lemma all_takew (P : ascii -> bool) (s : string) : all_chars P (takew P s) = true.
Proof.
  induction s as [|c s IH]; [reflexivity|]. simpl.
  destruct (P c) eqn:E; [|reflexivity]. simpl. now rewrite E.
Qed.

Lemma head_dropw (P : ascii -> bool) (s : string) : head_is P (dropw P s) = false.
Proof.
  induction s as [|c s IH]; [reflexivity|]. simpl.
  destruct (P c) eqn:E; [exact IH|]. simpl. exact E.
Qed.

Lemma dropw_app (P : ascii -> bool) (w r : string) :
  all_chars P w = true -> head_is P r = false -> dropw P (w +:+ r) = r.
Proof.
  intros Hw Hr. induction w as [|c w IH].
  - rewrite sapp_nil_l. destruct r as [|d r]; [reflexivity|].
    simpl in *. now rewrite Hr.
  - simpl in Hw. apply andb_true_iff in Hw as [Hc Hw].
    rewrite sapp_cons. simpl. rewrite Hc. auto.
Qed.

Lemma takew_app (P : ascii -> bool) (w r : string) :
  all_chars P w = true -> head_is P r = false -> takew P (w +:+ r) = w.
Proof.
  intros Hw Hr. induction w as [|c w IH].
  - rewrite sapp_nil_l. destruct r as [|d r]; [reflexivity|].
    simpl in *. now rewrite Hr.
  - simpl in Hw. apply andb_true_iff in Hw as [Hc Hw].
    rewrite sapp_cons. simpl. rewrite Hc. now rewrite IH.
Qed.

(** A greedy repetition never has to give a character back when what
    follows it cannot start with a character of the repetition, or when
    what follows succeeds after the longest run. *)
Lemma star_drop {R} (ok : ascii -> bool) (kont : string -> option R) (s : string) :
  (forall c s', ok c = true -> kont (String c s') = None)
  \/ is_Some (kont (dropw ok s)) ->
  Re.star ok kont s = kont (dropw ok s).
Proof.
  induction s as [|c s IH]; intros H; [reflexivity|]. simpl.
  destruct (ok c) eqn:E; [|reflexivity].
  simpl in H. rewrite E in H. rewrite (IH H).
  destruct (kont (dropw ok s)) eqn:K; [reflexivity|].
  destruct H as [H|H]; [now rewrite H|now destruct H].
Qed.

Lemma dropw_ext (P Q : ascii -> bool) (s : string) :
  (forall c, P c = Q c) -> dropw P s = dropw Q s.
Proof.
  intros H. induction s as [|c s IH]; [reflexivity|]. simpl.
  now rewrite H, IH.
Qed.

(** The equations of [Re.exec], one per operation. *)
Lemma exec_one (ic : bool) (a : Re.atom) (k : Re.prog) (s : string) (mk : Re.marks) :
  Re.exec ic (Re.Rep Re.One a :: k) s mk
  = match s with
    | String c s' => if Re.atom_match ic a c then Re.exec ic k s' mk else None
    | EmptyString => None
    end.
Proof. reflexivity. Qed.

Lemma exec_star (ic : bool) (a : Re.atom) (k : Re.prog) (s : string) (mk : Re.marks) :
  Re.exec ic (Re.Rep Re.Star a :: k) s mk
  = Re.star (Re.atom_match ic a) (fun s' => Re.exec ic k s' mk) s.
Proof. reflexivity. Qed.

Lemma exec_plus (ic : bool) (a : Re.atom) (k : Re.prog) (s : string) (mk : Re.marks) :
  Re.exec ic (Re.Rep Re.Plus a :: k) s mk
  = match s with
    | String c s' =>
        if Re.atom_match ic a c
        then Re.star (Re.atom_match ic a) (fun s'' => Re.exec ic k s'' mk) s'
        else None
    | EmptyString => None
    end.
Proof. reflexivity. Qed.

Lemma exec_opt (ic : bool) (a : Re.atom) (k : Re.prog) (s : string) (mk : Re.marks) :
  Re.exec ic (Re.Rep Re.Opt a :: k) s mk
  = match s with
    | String c s' =>
        if Re.atom_match ic a c then
          match Re.exec ic k s' mk with
          | Some r => Some r
          | None => Re.exec ic k s mk
          end
        else Re.exec ic k s mk
    | EmptyString => Re.exec ic k s mk
    end.
Proof. now destruct s. Qed.

Lemma exec_open (ic : bool) (k : Re.prog) (s : string) (mk : Re.marks) :
  Re.exec ic (Re.MarkOpen :: k) s mk
  = Re.exec ic k s {| Re.m_open := Some s; Re.m_close := Re.m_close mk |}.
Proof. reflexivity. Qed.

Lemma exec_close (ic : bool) (k : Re.prog) (s : string) (mk : Re.marks) :
  Re.exec ic (Re.MarkClose :: k) s mk
  = Re.exec ic k s {| Re.m_open := Re.m_open mk; Re.m_close := Some s |}.
Proof. reflexivity. Qed.

Lemma exec_nil (ic : bool) (s : string) (mk : Re.marks) :
  Re.exec ic nil s mk = Some (s, mk).
Proof. reflexivity. Qed.

Lemma exec_group (s : string) (mk : Re.marks) :
  Re.exec true
    (Re.MarkOpen
     :: Re.Rep Re.Plus
          (Re.AIn true (Re.IChr "," :: Re.IChr "'" :: Re.IChr dquote :: Re.ISpace :: nil))
     :: Re.MarkClose :: nil) s mk
  = if head_is value_char s
    then Some (dropw value_char s,
               {| Re.m_open := Some s; Re.m_close := Some (dropw value_char s) |})
    else None.
Proof.
  rewrite exec_open, exec_plus.
  destruct s as [|c r]; [reflexivity|].
  cbn [head_is]. rewrite match_value.
  destruct (value_char c) eqn:E; [|reflexivity].
  rewrite star_drop by (right; rewrite exec_close, exec_nil; eauto).
  rewrite exec_close, exec_nil.
  rewrite (dropw_ext _ value_char r match_value).
  cbn. now rewrite E.
Qed.

Lemma exec_tail (s : string) (mk : Re.marks) :
  Re.exec true NAMELIST_TAIL s mk
  = match scan_tail s with
    | Some (v, rest) =>
        Some (rest, {| Re.m_open := Some (v +:+ rest); Re.m_close := Some rest |})
    | None => None
    end.
Proof.
  unfold NAMELIST_TAIL, scan_tail. rewrite exec_star.
  rewrite star_drop.
  2:{ left. intros c s' Hc. rewrite exec_one, match_equals.
      now rewrite (space_not_equals c Hc). }
  change (Re.atom_match true Re.ASpace) with is_space.
  rewrite exec_one.
  destruct (dropw is_space s) as [|c s2]; [reflexivity|].
  rewrite match_equals. destruct (Ascii.eqb c "="); [|reflexivity].
  rewrite exec_star.
  rewrite star_drop.
  2:{ left. intros d s' Hd. rewrite exec_opt, match_quote, (space_not_quote d Hd).
      rewrite exec_group. cbn [head_is]. now rewrite (space_not_value d Hd). }
  change (Re.atom_match true Re.ASpace) with is_space.
  rewrite exec_opt.
  destruct (dropw is_space s2) as [|q r].
  - rewrite exec_group. reflexivity.
  - rewrite match_quote. rewrite !exec_group. cbn [head_is].
    destruct (is_quote q) eqn:Q.
    + rewrite (quote_not_value q Q).
      destruct (head_is value_char r); [|reflexivity].
      now rewrite takew_dropw.
    + cbn [head_is]. destruct (value_char q) eqn:V; [|reflexivity].
      now rewrite takew_dropw.
Qed.

Lemma exec_lit_ci (key : string) (k : Re.prog) (s : string) (mk : Re.marks) :
  Re.exec true (lit key ++ k) s mk
  = match strip_ci key s with
    | Some r => Re.exec true k r mk
    | None => None
    end.
Proof.
  revert s. induction key as [|c key IH]; intros s; [reflexivity|].
  cbn [lit app strip_ci]. rewrite exec_one.
  destruct s as [|d s]; [reflexivity|].
  cbn [Re.atom_match Re.chr_match]. destruct (Ascii.eqb (lower d) (lower c)); auto.
Qed.

Lemma strip_ci_spec (key s r : string) :
  strip_ci key s = Some r <-> exists K, s = K +:+ r /\ lower_str K = lower_str key.
Proof.
  revert s. induction key as [|c key IH]; intros s; simpl.
  - split.
    + intros [= ->]. now exists "".
    + intros (K & -> & HK). destruct K; [reflexivity|discriminate].
  - destruct s as [|d s].
    + split; [discriminate|]. intros (K & HK & HL). destruct K; discriminate.
    + destruct (Ascii.eqb_spec (lower d) (lower c)) as [E|E].
      * rewrite IH. split.
        -- intros (K & -> & HK). exists (String d K). rewrite sapp_cons. simpl.
           now rewrite E, HK.
        -- intros (K & HK & HL). destruct K as [|d' K]; [discriminate|].
           rewrite sapp_cons in HK. injection HK as <- ->. simpl in HL.
           injection HL as _ HL. eauto.
      * split; [discriminate|]. intros (K & HK & HL).
        destruct K as [|d' K]; [discriminate|].
        rewrite sapp_cons in HK. injection HK as <- ->. simpl in HL.
        injection HL as HL _. contradiction.
Qed.

Lemma take_app (v rest : string) :
  Re.take (String.length (v +:+ rest) - String.length rest) (v +:+ rest) = v.
Proof.
  rewrite slength_app. replace (_ + _ - _) with (String.length v) by lia.
  induction v as [|c v IH]; [reflexivity|].
  rewrite sapp_cons. simpl. now rewrite IH.
Qed.

Lemma value_at_scan (key t : string) :
  value_at key t
  = match strip_ci key t with
    | Some r => fst <$> scan_tail r
    | None => None
    end.
Proof.
  unfold value_at. rewrite exec_lit_ci.
  destruct (strip_ci key t) as [r|]; [|reflexivity].
  rewrite exec_tail. destruct (scan_tail r) as [[v rest]|]; [|reflexivity].
  unfold Re.group1. cbn. now rewrite take_app.
Qed.

Lemma all_chars_head (P : ascii -> bool) (v : string) :
  v <> "" -> all_chars P v = true -> head_is P v = true.
Proof.
  destruct v as [|c v]; [contradiction|]. simpl.
  intros _ H. now apply andb_true_iff in H.
Qed.

Lemma head_app (P : ascii -> bool) (v r : string) :
  v <> "" -> head_is P (v +:+ r) = head_is P v.
Proof. destruct v; [contradiction|reflexivity]. Qed.

Lemma scan_tail_spec (s v rest : string) :
  scan_tail s = Some (v, rest) <->
  exists ws1 ws2 q,
    s = ws1 +:+ "=" +:+ ws2 +:+ q +:+ v +:+ rest
    /\ all_chars is_space ws1 = true
    /\ all_chars is_space ws2 = true
    /\ (q = "" \/ exists c, q = String c "" /\ is_quote c = true)
    /\ v <> ""
    /\ all_chars value_char v = true
    /\ head_is value_char rest = false.
Proof.
  unfold scan_tail. split.
  - intros H.
    exists (takew is_space s).
    destruct (dropw is_space s) as [|c s2] eqn:E1; [discriminate|].
    destruct (Ascii.eqb_spec c "=") as [->|]; [|discriminate].
    exists (takew is_space s2).
    pose proof (takew_dropw is_space s) as D1. rewrite E1 in D1.
    pose proof (takew_dropw is_space s2) as D2.
    destruct (dropw is_space s2) as [|q r] eqn:E2; [discriminate|].
    pose proof (head_dropw is_space s2) as Hq. rewrite E2 in Hq. cbn in Hq.
    destruct (is_quote q) eqn:Q.
    + exists (String q "").
      destruct (head_is value_char r) eqn:V; [|discriminate].
      injection H as <- <-.
      split. { rewrite <- D1 at 1. rewrite <- D2 at 1.
               now rewrite !sapp_cons, !sapp_nil_l, takew_dropw. }
      split; [apply all_takew|]. split; [apply all_takew|].
      split; [right; eauto|].
      split. { destruct r as [|d r]; [discriminate|]. cbn in V |- *. now rewrite V. }
      split; [apply all_takew|apply head_dropw].
    + exists "".
      destruct (head_is value_char (String q r)) eqn:V; [|discriminate].
      injection H as <- <-.
      split. { rewrite <- D1 at 1. rewrite <- D2 at 1.
               rewrite !sapp_cons, !sapp_nil_l.
               cbn [head_is] in V. rewrite V.
               now rewrite sapp_cons, takew_dropw. }
      split; [apply all_takew|]. split; [apply all_takew|].
      split; [now left|].
      split. { cbn in V |- *. now rewrite V. }
      split; [exact (all_takew value_char (String q r))
             |exact (head_dropw value_char (String q r))].
  - intros (ws1 & ws2 & q & -> & H1 & H2 & Hq & Hv & Hav & Hr).
    rewrite (dropw_app is_space ws1) by (auto; reflexivity).
    rewrite sapp_cons, sapp_nil_l. cbv beta iota.
    change (Ascii.eqb "=" "=") with true. cbv beta iota.
    pose proof (all_chars_head _ _ Hv Hav) as Hh.
    assert (Hsp : head_is is_space (q +:+ v +:+ rest) = false).
    { destruct Hq as [->|(c & -> & Hc)].
      - rewrite sapp_nil_l, head_app by assumption.
        destruct v as [|d v]; [contradiction|]. cbn in Hh |- *.
        destruct (is_space d) eqn:S; [|reflexivity].
        now rewrite (space_not_value d S) in Hh.
      - rewrite sapp_cons. cbn [head_is].
        destruct (is_space c) eqn:S; [|reflexivity].
        now rewrite (space_not_quote c S) in Hc. }
    rewrite (dropw_app is_space ws2) by assumption.
    destruct Hq as [->|(c & -> & Hc)].
    + rewrite sapp_nil_l. destruct v as [|d v]; [contradiction|].
      rewrite sapp_cons. cbn in Hh.
      destruct (is_quote d) eqn:Q; [now rewrite (quote_not_value d Q) in Hh|].
      rewrite <- sapp_cons. rewrite head_app by discriminate. cbn [head_is].
      rewrite Hh. now rewrite takew_app, dropw_app.
    + rewrite sapp_cons, sapp_nil_l, Hc. rewrite head_app by assumption.
      rewrite Hh. now rewrite takew_app, dropw_app.
Qed.

Lemma value_at_declares (key t v : string) :
  value_at key t = Some v <-> declares key t v.
Proof.
  rewrite value_at_scan. unfold declares. split.
  - destruct (strip_ci key t) as [r|] eqn:E; [|discriminate].
    apply strip_ci_spec in E as (K & -> & HK).
    destruct (scan_tail r) as [[v' rest]|] eqn:S; [|discriminate].
    intros [= <-]. apply scan_tail_spec in S as (ws1 & ws2 & q & -> & H).
    exists K, ws1, ws2, q, rest. auto.
  - intros (K & ws1 & ws2 & q & rest & -> & HK & H).
    assert (E : strip_ci key (K +:+ ws1 +:+ "=" +:+ ws2 +:+ q +:+ v +:+ rest)
                = Some (ws1 +:+ "=" +:+ ws2 +:+ q +:+ v +:+ rest)).
    { apply strip_ci_spec. eauto. }
    rewrite E.
    assert (S : scan_tail (ws1 +:+ "=" +:+ ws2 +:+ q +:+ v +:+ rest) = Some (v, rest)).
    { apply scan_tail_spec. exists ws1, ws2, q. auto. }
    now rewrite S.
Qed.

(** *** The pattern of a plain key *)

Lemma pstep_plain (c : ascii) (ops : list Re.op) :
  plain_char c = true ->
  Re.pstep (Some (Re.Top, ops)) c = Some (Re.Top, Re.Rep Re.One (Re.AChr c) :: ops).
Proof. by_cases_on_char c. Qed.

Lemma pfold_plain (key : string) (ops : list Re.op) :
  plain_key key ->
  Re.pfold (Some (Re.Top, ops)) key = Some (Re.Top, rev (lit key) ++ ops).
Proof.
  unfold plain_key. revert ops. induction key as [|c key IH]; intros ops H.
  - reflexivity.
  - simpl in H. apply andb_true_iff in H as [Hc H].
    cbn [Re.pfold lit]. rewrite (pstep_plain c ops Hc), (IH _ H).
    cbn [rev]. now rewrite <- List.app_assoc.
Qed.

Lemma pfold_app (st : option Re.pstate) (s t : string) :
  Re.pfold st (s +:+ t) = Re.pfold (Re.pfold st s) t.
Proof.
  revert st. induction s as [|c s IH]; intros st; [reflexivity|].
  rewrite sapp_cons. apply IH.
Qed.

Lemma pfold_tail (ops : list Re.op) :
  Re.pfold (Some (Re.Top, ops)) namelist_tail
  = Some (Re.Top, rev NAMELIST_TAIL ++ ops).
Proof. reflexivity. Qed.

Lemma marks_ok_lit (key : string) (o c : bool) (p : Re.prog) :
  Re.marks_ok o c (lit key ++ p) = Re.marks_ok o c p.
Proof. induction key as [|d key IH]; [reflexivity|exact IH]. Qed.

Lemma compile_plain (key : string) :
  plain_key key ->
  Re.compile (key +:+ namelist_tail) = Some (lit key ++ NAMELIST_TAIL).
Proof.
  intros H. unfold Re.compile.
  rewrite pfold_app, (pfold_plain key nil H), pfold_tail.
  rewrite List.app_nil_r, rev_app_distr, !rev_involutive.
  now rewrite marks_ok_lit.
Qed.

(** *** The leftmost match *)

Lemma exec_value (key s rest : string) (mk : Re.marks) :
  Re.exec true (lit key ++ NAMELIST_TAIL) s Re.no_marks = Some (rest, mk) ->
  is_Some (value_at key s).
Proof.
  intros H. rewrite value_at_scan. rewrite exec_lit_ci in H.
  destruct (strip_ci key s) as [r|]; [|discriminate].
  rewrite exec_tail in H. destruct (scan_tail r) as [[v rest']|]; [|discriminate].
  cbn. eauto.
Qed.

Lemma search_first_value (key s : string) :
  match Re.search true (lit key ++ NAMELIST_TAIL) s with
  | Some m => Re.group1 m
  | None => None
  end = first_value key s.
Proof.
  induction s as [|c s IH].
  - cbn [Re.search first_value]. unfold value_at.
    destruct (Re.exec true _ "" Re.no_marks) as [[rest mk]|] eqn:E; [|reflexivity].
    destruct (exec_value _ _ _ _ E) as [v Hv]. unfold value_at in Hv.
    rewrite E in Hv. now rewrite Hv.
  - cbn [Re.search first_value]. unfold value_at at 1.
    destruct (Re.exec true _ (String c s) Re.no_marks) as [[rest mk]|] eqn:E; [|exact IH].
    destruct (exec_value _ _ _ _ E) as [v Hv]. unfold value_at in Hv.
    rewrite E in Hv. now rewrite Hv.
Qed.

Lemma parse_first_value (text key : string) :
  plain_key key -> _parse_namelist_value text key = first_value key text.
Proof.
  intros H. unfold _parse_namelist_value. rewrite (compile_plain key H).
  apply search_first_value.
Qed.

Lemma first_value_spec (key text v : string) :
  first_value key text = Some v <->
  exists pre t,
    text = pre +:+ t /\ value_at key t = Some v
    /\ forall pre' t', text = pre' +:+ t' ->
         String.length pre' < String.length pre -> value_at key t' = None.
Proof.
  split.
  - induction text as [|c text IH]; cbn [first_value].
    + destruct (value_at key "") as [v'|] eqn:E; [|discriminate].
      intros [= ->]. exists "", "". repeat split; auto. simpl. lia.
    + destruct (value_at key (String c text)) as [v'|] eqn:E.
      * intros [= ->]. exists "", (String c text). repeat split; auto. simpl. lia.
      * intros H. destruct (IH H) as (pre & t & -> & Hv & Hmin).
        exists (String c pre), t. split; [now rewrite sapp_cons|]. split; [exact Hv|].
        intros [|d pre'] t' Heq Hlen.
        -- rewrite sapp_nil_l in Heq. now subst t'.
        -- rewrite !sapp_cons in Heq. injection Heq as <- Heq.
           apply (Hmin pre' t' Heq). simpl in Hlen. lia.
  - intros (pre & t & -> & Hv & Hmin). induction pre as [|c pre IH].
    + rewrite sapp_nil_l. destruct t; cbn [first_value]; now rewrite Hv.
    + rewrite sapp_cons. cbn [first_value].
      rewrite (Hmin "" (String c (pre +:+ t))) by (auto; simpl; lia).
      apply IH. intros pre' t' Heq Hlen.
      apply (Hmin (String c pre') t'); [now rewrite sapp_cons, Heq|simpl; lia].
Qed.

(** *** Letter case *)

Lemma plain_lower (c : ascii) : plain_char (lower c) = plain_char c.
Proof. by_cases_on_char c. Qed.

Lemma plain_key_ci (key key' : string) :
  plain_key key -> lower_str key' = lower_str key -> plain_key key'.
Proof.
  unfold plain_key. revert key'.
  induction key as [|c key IH]; intros [|c' key'] H E; try discriminate; auto.
  simpl in *. injection E as Ec E. apply andb_true_iff in H as [Hc H].
  rewrite (IH key' H E), andb_true_r.
  now rewrite <- plain_lower, Ec, plain_lower.
Qed.

Lemma strip_ci_key (key key' s : string) :
  lower_str key' = lower_str key -> strip_ci key' s = strip_ci key s.
Proof.
  revert key' s.
  induction key as [|c key IH]; intros [|c' key'] s E; try discriminate; auto.
  simpl in *. injection E as Ec E. destruct s as [|d s]; [reflexivity|].
  rewrite Ec. destruct (Ascii.eqb (lower d) (lower c)); auto.
Qed.

Lemma strip_ci_text (key X X' body : string) :
  lower_str X = lower_str X' -> String.length X <= String.length key ->
  strip_ci key (X +:+ body) = strip_ci key (X' +:+ body).
Proof.
  revert X X'.
  induction key as [|c key IH]; intros [|x X] [|x' X'] E L; try discriminate;
    auto; simpl in L; try lia.
  simpl in E. injection E as Ex E. rewrite !sapp_cons. simpl. rewrite Ex.
  destruct (Ascii.eqb (lower x') (lower c)); [|reflexivity].
  apply IH; [exact E|lia].
Qed.

Lemma lower_str_length (a b : string) :
  lower_str a = lower_str b -> String.length a = String.length b.
Proof.
  revert b. induction a as [|c a IH]; intros [|d b] E; try discriminate; auto.
  simpl in *. injection E as _ E. now rewrite (IH b E).
Qed.

Lemma first_value_text (key X X' body : string) :
  lower_str X = lower_str X' -> String.length X <= String.length key ->
  first_value key (X +:+ body) = first_value key (X' +:+ body).
Proof.
  revert X'. induction X as [|x X IH]; intros [|x' X'] E L; try discriminate; auto.
  assert (V : value_at key (String x X +:+ body) = value_at key (String x' X' +:+ body)).
  { rewrite !value_at_scan. now rewrite (strip_ci_text key _ _ body E L). }
  rewrite !sapp_cons in *. cbn [first_value]. rewrite V. clear V.
  destruct (value_at key (String x' (X' +:+ body))); [reflexivity|].
  simpl in E, L. injection E as _ E. apply IH; [exact E|lia].
Qed.

(** C10, as stated, fails on the first occurrence of the key: a text
    that starts with the key, where no declaration follows it, and that
    declares the key further down. *)
Lemma parse_namelist_value_counterexample :
  (exists post,
     "outdir: made by the runner" +:+ Sample.nl +:+ "outdir = './out/'"
     = "outdir" +:+ post)
  /\ value_at "outdir"
       ("outdir: made by the runner" +:+ Sample.nl +:+ "outdir = './out/'")
     = None
  /\ _parse_namelist_value
       ("outdir: made by the runner" +:+ Sample.nl +:+ "outdir = './out/'")
       "outdir"
     = Some "./out/".
Proof.
  split; [eexists; vm_compute; reflexivity|]. split; vm_compute; reflexivity.
Qed.

(** C10, amended. For a key of letters, digits and underscores the
    extractor returns the value of the leftmost declaration of the key in
    the text, the key being read in any letter case, both in the text and
    as the argument: occurrences of the key that no declaration follows
    are passed over. *)
Theorem parse_namelist_value_spec (text key : string) :
  plain_key key ->
  (forall v,
     _parse_namelist_value text key = Some v <->
     exists pre t,
       text = pre +:+ t /\ declares key t v
       /\ forall pre' t' v', text = pre' +:+ t' ->
            String.length pre' < String.length pre -> ~ declares key t' v')
  /\ (forall key',
        lower_str key' = lower_str key ->
        _parse_namelist_value text key' = _parse_namelist_value text key)
  /\ (forall K K' body,
        lower_str K = lower_str key -> lower_str K' = lower_str key ->
        _parse_namelist_value (K +:+ body) key
        = _parse_namelist_value (K' +:+ body) key).
Proof.
  intros Hkey. split; [|split].
  - intros v. rewrite (parse_first_value text key Hkey), first_value_spec. split.
    + intros (pre & t & -> & Hv & Hmin). exists pre, t.
      split; [reflexivity|]. split; [now apply value_at_declares|].
      intros pre' t' v' Heq Hlen Hd. apply value_at_declares in Hd.
      now rewrite (Hmin pre' t' Heq Hlen) in Hd.
    + intros (pre & t & -> & Hd & Hmin). exists pre, t.
      split; [reflexivity|]. split; [now apply value_at_declares|].
      intros pre' t' Heq Hlen.
      destruct (value_at key t') as [v'|] eqn:E; [|reflexivity].
      apply value_at_declares in E. now destruct (Hmin pre' t' v' Heq Hlen).
  - intros key' E.
    rewrite (parse_first_value text key Hkey),
      (parse_first_value text key' (plain_key_ci key key' Hkey E)).
    induction text as [|c text IH]; cbn [first_value];
      rewrite !value_at_scan, (strip_ci_key key key' _ E);
      [reflexivity|]. now rewrite IH.
  - intros K K' body EK EK'.
    rewrite !(parse_first_value _ key Hkey).
    apply first_value_text; [congruence|].
    now rewrite (lower_str_length K key EK).
Qed.

Lemma parse_namelist_value_spec_witness :
  _parse_namelist_value ("OUTDIR" +:+ " = ./out/") "outdir"
  = _parse_namelist_value ("outdir" +:+ " = ./out/") "outdir".
Proof.
  exact (proj2 (proj2 (parse_namelist_value_spec "" "outdir" eq_refl))
           "OUTDIR" "outdir" " = ./out/" eq_refl eq_refl).
Defined.

(** ** Walking and making directories *)

Lemma loc_after_0 (start : loc) (cs : list string) : loc_after start cs 0 = start.
Proof. reflexivity. Qed.

Lemma loc_after_cons (start : loc) (c : string) (cs : list string) (k : nat) :
  loc_after start (c :: cs) (S k) = loc_after (kstep start c) cs k.
Proof. reflexivity. Qed.

Lemma loc_after_S (start : loc) (cs : list string) (k : nat) (c : string) :
  cs !! k = Some c ->
  loc_after start cs (S k) = kstep (loc_after start cs k) c.
Proof.
  intros H. unfold loc_after. rewrite (take_S_r cs k c H).
  now rewrite fold_left_app.
Qed.

Lemma loc_after_all (start : loc) (cs : list string) :
  loc_after start cs (length cs) = fold_left kstep cs start.
Proof. unfold loc_after. now rewrite firstn_all. Qed.



Lemma walk_inv (f : store) (cur : loc) (cs : list string) (l : loc) :
  walk f cur cs = inr l ->
  l = fold_left kstep cs cur
  /\ forall k, 1 <= k <= length cs -> node_at f (loc_after cur cs k) = Some Dir.
Proof.
  revert cur. induction cs as [|c cs IH]; intros cur H.
  - injection H as <-. split; [reflexivity|]. simpl. lia.
  - cbn [walk] in H.
    destruct (node_at f (kstep cur c)) as [[|r d]|] eqn:E; try discriminate.
    destruct (IH _ H) as [-> Hd]. split; [reflexivity|].
    intros [|[|k]] Hk; [lia|exact E|].
    rewrite loc_after_cons. apply Hd. simpl in Hk. lia.
Qed.

Lemma namei_snoc (f : store) (start : loc) (cs : list string) (c : string) :
  namei f start (cs ++ c :: nil)
  = match walk f start cs with
    | inr cur => inr (kstep cur c)
    | inl x => inl x
    end.
Proof.
  unfold namei. rewrite removelast_last, last_last.
  now destruct cs.
Qed.

Lemma node_at_insert (f : store) (l l' : loc) :
  node_at f l = None ->
  node_at (<[l := Dir]> f) l'
  = if decide (l' = l) then Some Dir else node_at f l'.
Proof.
  intros H. destruct l as [|x l]; [discriminate|].
  destruct l' as [|x' l']; [reflexivity|].
  unfold node_at. destruct (decide (x' :: l' = x :: l)) as [->|N].
  - now rewrite lookup_insert_eq.
  - now rewrite lookup_insert_ne.
Qed.

Lemma grows_refl (f : store) (start : loc) (cs : list string) : grows f f start cs.
Proof. intros l. now left. Qed.

Lemma grows_trans (f f1 f2 : store) (start : loc) (cs : list string) :
  grows f f1 start cs -> grows f1 f2 start cs -> grows f f2 start cs.
Proof.
  intros G1 G2 l. destruct (G2 l) as [E2|(N2 & D2 & K2)].
  - rewrite E2. apply G1.
  - destruct (G1 l) as [E1|(N1 & D1 & _)].
    + right. rewrite <- E1. auto.
    + congruence.
Qed.

Lemma grows_insert (f : store) (start : loc) (cs : list string) (k : nat) :
  k <= length cs -> node_at f (loc_after start cs k) = None ->
  grows f (<[loc_after start cs k := Dir]> f) start cs.
Proof.
  intros Hk N l. rewrite (node_at_insert _ _ l N).
  destruct (decide (l = loc_after start cs k)) as [->|]; [right|now left].
  eauto.
Qed.

Lemma grows_dir (f f' : store) (start : loc) (cs : list string) (l : loc) :
  grows f f' start cs -> node_at f l = Some Dir -> node_at f' l = Some Dir.
Proof. intros G H. destruct (G l) as [E|(N & _)]; congruence. Qed.


Lemma parse_nonempty (text key v : string) :
  plain_key key -> _parse_namelist_value text key = Some v -> v <> "".
Proof.
  intros Hk H. rewrite (parse_first_value text key Hk) in H.
  apply first_value_spec in H as (pre & t & _ & Hv & _).
  apply value_at_declares in Hv.
  destruct Hv as (K & ws1 & ws2 & q & rest & _ & _ & _ & _ & _ & Hv & _).
  exact Hv.
Qed.

Lemma walk_grows (f f' : store) (start0 : loc) (cs0 : list string)
    (cur : loc) (cs : list string) (l : loc) :
  grows f f' start0 cs0 -> walk f cur cs = inr l -> walk f' cur cs = inr l.
Proof.
  intros G. revert cur. induction cs as [|c cs IH]; intros cur W; [exact W|].
  cbn [walk] in *.
  destruct (node_at f (kstep cur c)) as [[|r d]|] eqn:E; try discriminate.
  rewrite (grows_dir _ _ _ _ _ G E). auto.
Qed.

Lemma namei_grows (f f' : store) (start0 : loc) (cs0 : list string)
    (start : loc) (cs : list string) (l : loc) :
  grows f f' start0 cs0 -> namei f start cs = inr l -> namei f' start cs = inr l.
Proof.
  intros G. unfold namei. destruct cs as [|c cs]; [auto|].
  destruct (walk f start (removelast (c :: cs))) as [x|cur] eqn:W; [discriminate|].
  now rewrite (walk_grows _ _ _ _ _ _ _ G W).
Qed.

Lemma read_grows (strict : bool) (f f' : store) (start0 : loc) (cs0 : list string)
    (start : loc) (cs : list string) (t : string) :
  grows f f' start0 cs0 ->
  fs_read_text strict f start cs = inr t -> fs_read_text strict f' start cs = inr t.
Proof.
  intros G. unfold fs_read_text.
  destruct (namei f start cs) as [x|l] eqn:N; [discriminate|].
  rewrite (namei_grows _ _ _ _ _ _ _ G N).
  destruct (G l) as [E|(E & _)]; rewrite E; [auto|discriminate].
Qed.


Lemma os_mkdir_sound (refuses : refusal) (f f' : store) (start : loc)
    (cs : list string) (n : nat) :
  n <= length cs ->
  os_mkdir refuses f start (firstn n cs) = inr f' ->
  grows f f' start cs /\ fs_is_dir f' start (firstn n cs) = true.
Proof.
  intros Hn. unfold os_mkdir, fs_is_dir.
  destruct (namei f start (firstn n cs)) as [x|l] eqn:N; [discriminate|].
  destruct (node_at f l) as [nd|] eqn:E; [discriminate|].
  destruct (refuses f l); [discriminate|].
  intros [= <-].
  assert (G : grows f (<[l := Dir]> f) start cs).
  { assert (Hl : l = loc_after start cs n).
    { destruct n as [|m].
      - rewrite take_0 in N. now injection N as <-.
      - destruct (lookup_lt_is_Some_2 cs m ltac:(lia)) as [c Hc].
        rewrite (take_S_r cs m c Hc), namei_snoc in N.
        destruct (walk f start (firstn m cs)) as [x|cur] eqn:W; [discriminate|].
        injection N as <-. apply walk_inv in W as [-> _].
        now rewrite (loc_after_S start cs m c Hc). }
    subst l. now apply grows_insert. }
  split; [exact G|].
  rewrite (namei_grows _ _ _ _ _ _ _ G N), (node_at_insert _ _ _ E).
  now destruct (decide (l = l)).
Qed.

Lemma mkdir_exist_ok_sound (refuses : refusal) (f f' : store) (start : loc)
    (cs : list string) (n : nat) :
  n <= length cs ->
  mkdir_exist_ok refuses f start (firstn n cs) = inr f' ->
  grows f f' start cs /\ fs_is_dir f' start (firstn n cs) = true.
Proof.
  intros Hn. unfold mkdir_exist_ok.
  destruct (os_mkdir refuses f start (firstn n cs)) as [x|f1] eqn:Emk.
  - destruct x as [[]| | |]; try discriminate;
      (destruct (fs_is_dir f start (firstn n cs)) eqn:D; [|discriminate]);
      intros [= <-]; (split; [apply grows_refl|exact D]).
  - intros [= <-]. now apply (os_mkdir_sound refuses).
Qed.

(** Making a directory with its parents only adds directories on the way
    of the path, also when it fails; when it succeeds the directory is
    there. *)
Lemma mkdir_parents_grows (refuses : refusal) (start : loc) (cs : list string)
    (n : nat) (f : store) (o : option exn) (f' : store) :
  n <= length cs ->
  mkdir_parents refuses n f start cs = (o, f') ->
  grows f f' start cs /\ (o = None -> fs_is_dir f' start (firstn n cs) = true).
Proof.
  revert f o f'. induction n as [|m IH]; intros f o f' Hn; cbn [mkdir_parents].
  - destruct (os_mkdir refuses f start (firstn 0 cs)) as [x|f1] eqn:Emk.
    + destruct x as [[]| | |];
        try (destruct (fs_is_dir f start (firstn 0 cs)) eqn:D);
        intros [= <- <-]; (split; [apply grows_refl|]);
        intros; try discriminate; exact D.
    + intros [= <- <-]. destruct (os_mkdir_sound _ _ _ _ _ _ Hn Emk). auto.
  - destruct (os_mkdir refuses f start (firstn (S m) cs)) as [x|f1] eqn:Emk.
    + assert (Hplain : forall y,
        (if fs_is_dir f start (firstn (S m) cs) then (None, f)
         else (Some (OSError y), f)) = (o, f') ->
        grows f f' start cs
        /\ (o = None -> fs_is_dir f' start (firstn (S m) cs) = true)).
      { intros y. destruct (fs_is_dir f start (firstn (S m) cs)) eqn:D;
          intros [= <- <-]; (split; [apply grows_refl|]);
          intros; try discriminate; exact D. }
      destruct x as [[]| | |]; try apply Hplain;
        try (intros [= <- <-]; split; [apply grows_refl|discriminate]).
      destruct (mkdir_parents refuses m f start cs) as [[y|] f1] eqn:Erec.
      * intros [= <- <-]. destruct (IH _ _ _ ltac:(lia) Erec) as [G1 _].
        split; [exact G1|discriminate].
      * destruct (IH _ _ _ ltac:(lia) Erec) as [G1 _].
        destruct (mkdir_exist_ok refuses f1 start (firstn (S m) cs))
          as [y|f2] eqn:Eex.
        -- intros [= <- <-]. split; [exact G1|discriminate].
        -- intros [= <- <-].
           destruct (mkdir_exist_ok_sound _ _ _ _ _ _ Hn Eex) as [G2 D].
           split; [exact (grows_trans _ _ _ _ _ G1 G2)|auto].
    + intros [= <- <-]. destruct (os_mkdir_sound _ _ _ _ _ _ Hn Emk). auto.
Qed.

Lemma mkdir_parents_sound (refuses : refusal) (start : loc) (cs : list string)
    (n : nat) (f f' : store) :
  n <= length cs ->
  mkdir_parents refuses n f start cs = (None, f') ->
  grows f f' start cs /\ fs_is_dir f' start (firstn n cs) = true.
Proof.
  intros Hn H. destruct (mkdir_parents_grows _ _ _ _ _ _ _ Hn H) as [G D]. auto.
Qed.

Lemma mkdir_parents_again (refuses : refusal) (start : loc) (cs : list string)
    (n : nat) (f : store) :
  fs_is_dir f start (firstn n cs) = true ->
  mkdir_parents refuses n f start cs = (None, f).
Proof.
  intros D.
  assert (Hmk : os_mkdir refuses f start (firstn n cs) = inl (OSError EEXIST)).
  { unfold os_mkdir. unfold fs_is_dir in D.
    destruct (namei f start (firstn n cs)) as [x|l]; [discriminate|].
    destruct (node_at f l); [reflexivity|discriminate]. }
  destruct n; cbn [mkdir_parents]; now rewrite Hmk, D.
Qed.

Lemma mkdir_parents_file (refuses : refusal) (f : store) (start : loc)
    (cs : list string) (l : loc) (r : bool) (d : content) :
  namei f start cs = inr l -> node_at f l = Some (File r d) ->
  mkdir_parents refuses (length cs) f start cs = (Some (OSError EEXIST), f).
Proof.
  intros Hn Hl.
  assert (Hmk : os_mkdir refuses f start cs = inl (OSError EEXIST)).
  { unfold os_mkdir. now rewrite Hn, Hl. }
  assert (Hd : fs_is_dir f start cs = false).
  { unfold fs_is_dir. now rewrite Hn, Hl. }
  destruct (length cs) as [|m] eqn:E; cbn [mkdir_parents]; rewrite <- E, firstn_all;
    now rewrite Hmk, Hd.
Qed.


(** ** The run directory manager, on a readable deck *)

Lemma pseudo_check (input_path : path) (content : string) (e : env) (s : state) :
  (if truthy (_parse_namelist_value content "pseudo_dir") then
     bind (path_exists
             (declared_path input_path
                (default "" (_parse_namelist_value content "pseudo_dir"))))
       (fun b =>
          if negb b
          then log WARNING
                 (MsgPseudoNotFound
                    (declared_path input_path
                       (default "" (_parse_namelist_value content "pseudo_dir"))))
          else ret tt)
   else ret tt) e s
  = (Ret tt,
     {| fs := fs s;
        trace := trace s ++ pseudo_events e (fs s) input_path content |}).
Proof.
  unfold pseudo_events.
  destruct (_parse_namelist_value content "pseudo_dir") as [pv|] eqn:Hp.
  - assert (Hpv : truthy (Some pv) = true).
    { unfold truthy. apply negb_true_iff, String.eqb_neq.
      apply (parse_nonempty content "pseudo_dir"); [reflexivity|exact Hp]. }
    rewrite Hpv. cbn [default id from_option].
    unfold bind, path_exists. cbv zeta.
    destruct (fs_exists (fs s) _ _); cbn [negb]; unfold ret, log, emit;
      cbn [fs trace]; do 2 f_equal; now rewrite ?app_cons_assoc.
  - cbn. unfold ret. destruct s. cbn. now rewrite List.app_nil_r.
Qed.

(** What the manager does with a deck it can read, in one equation. *)
Lemma ensure_output_dirs_read (input_path : path) (e : env) (s : state)
    (content : string) :
  fs_read_text true (fs s) (origin e input_path) (p_parts input_path)
  = inr content ->
  _ensure_output_dirs input_path e s
  = match _parse_namelist_value content "outdir" with
    | Some v =>
        let dp := declared_path input_path v in
        match mkdir_parents (refuses e) (length (p_parts dp)) (fs s)
                (origin e dp) (p_parts dp) with
        | (None, f') =>
            (Ret tt,
             {| fs := f';
                trace := trace s ++ EvReadText input_path :: EvMkdir dp
                           :: pseudo_events e f' input_path content |})
        | (Some x, f') =>
            (Raise x,
             {| fs := f';
                trace := trace s ++ EvReadText input_path :: EvMkdir dp :: nil |})
        end
    | None =>
        (Ret tt,
         {| fs := fs s;
            trace := trace s ++ EvReadText input_path
                       :: pseudo_events e (fs s) input_path content |})
    end.
Proof.
  intros Hread. unfold _ensure_output_dirs, try_OSError, read_text. rewrite Hread.
  destruct (_parse_namelist_value content "outdir") as [v|] eqn:Hparse.
  - assert (Ht : truthy (Some v) = true).
    { unfold truthy. apply negb_true_iff, String.eqb_neq.
      apply (parse_nonempty content "outdir"); [reflexivity|exact Hparse]. }
    rewrite Ht. cbn [default id from_option]. cbv zeta.
    destruct (mkdir_parents _ _ (fs s) _ _) as [[x|] f'] eqn:Hmk.
    + erewrite bind_raise
        by (unfold mkdir_p; cbn [fs emit]; rewrite Hmk; reflexivity).
      unfold emit, set_fs. cbn [fs trace]. do 2 f_equal. now rewrite !app_cons_assoc.
    + mstep ltac:(unfold mkdir_p; cbn [fs emit]; rewrite Hmk; reflexivity).
      rewrite pseudo_check. unfold emit, set_fs. cbn [fs trace].
      do 2 f_equal. now rewrite !app_cons_assoc.
  - cbn [truthy]. mstep ltac:(reflexivity).
    rewrite pseudo_check. unfold emit. cbn [fs trace].
    do 2 f_equal. now rewrite !app_cons_assoc.
Qed.




Lemma find_pw_executable_spec_witness :
  exists r,
    _find_pw_executable "./pw.x" (Sample.env_of (Sample.quick "")) Sample.st0
    = (Ret r, emit (EvOsExists "./pw.x") Sample.st0)
    /\ (r = Some "./pw.x" <->
        fs_exists_str (fs Sample.st0) (cwd (Sample.env_of (Sample.quick ""))) "./pw.x"
        = true)
    /\ (fs_exists_str (fs Sample.st0) (cwd (Sample.env_of (Sample.quick ""))) "./pw.x"
        = false -> r = None).
Proof.
  apply (find_pw_executable_spec "./pw.x"). right. now exists ".", "pw.x".
Defined.

(** * Further properties of the runner *)

(** ** The supervisor, when no timeout strikes *)




(** X2. A sink that cannot be opened ends the run with that error before
    any process is started: when it is the output sink nothing has been
    created, when it is the error sink the output sink has. *)
Theorem run_pw_sink_failure (input_file : path) (pw_exec : string)
    (output_path error_path dir : path) (timeout : option Z)
    (mpi_cmd : option (list string)) (e : env) (s : state) (x : oserror) :
  (fs_open_w (fs s) (origin e output_path) (p_parts output_path) = inl x ->
   run_pw input_file pw_exec output_path error_path dir timeout mpi_cmd e s
   = (Raise (OSError x),
      {| fs := fs s;
         trace := trace s
           ++ EvLog INFO (MsgRunning (command mpi_cmd pw_exec input_file))
              :: EvOpen output_path :: nil |}))
  /\ (forall f1 lo,
        fs_open_w (fs s) (origin e output_path) (p_parts output_path) = inr (f1, lo) ->
        fs_open_w f1 (origin e error_path) (p_parts error_path) = inl x ->
        run_pw input_file pw_exec output_path error_path dir timeout mpi_cmd e s
        = (Raise (OSError x),
           {| fs := f1;
              trace := trace s
                ++ EvLog INFO (MsgRunning (command mpi_cmd pw_exec input_file))
                   :: EvOpen output_path :: EvOpen error_path :: nil |})).
Proof.
  split.
  - intros Ho. unfold run_pw. cbv zeta. fold (command mpi_cmd pw_exec input_file).
    mstep ltac:(reflexivity).
    erewrite bind_raise
      by (unfold open_w; cbn [fs emit]; rewrite Ho; reflexivity).
    unfold emit. cbn [fs trace]. do 2 f_equal. now rewrite !app_cons_assoc.
  - intros f1 lo Ho He. unfold run_pw. cbv zeta.
    fold (command mpi_cmd pw_exec input_file).
    mstep ltac:(reflexivity).
    mstep ltac:(unfold open_w; cbn [fs emit]; rewrite Ho; reflexivity).
    erewrite bind_raise
      by (unfold open_w; cbn [fs emit set_fs]; rewrite He; reflexivity).
    unfold emit, set_fs. cbn [fs trace]. do 2 f_equal. now rewrite !app_cons_assoc.
Qed.

Lemma run_pw_sink_failure_witness :
  fst (run_pw (Path "/home/u/si.in") "/usr/bin/pw.x" (Path "nowhere/si.out")
         (Path "si.err") (Path "/home/u") None None
         (Sample.env_of (Sample.quick "")) Sample.st0)
  = Raise (OSError ENOENT).
Proof.
  rewrite (proj1 (run_pw_sink_failure (Path "/home/u/si.in") "/usr/bin/pw.x"
                    (Path "nowhere/si.out") (Path "si.err") (Path "/home/u")
                    None None (Sample.env_of (Sample.quick "")) Sample.st0 ENOENT));
    reflexivity.
Defined.

(** X3. A command that cannot be started: the error of the spawn leaves
    the supervisor as it is, after both sinks have been created; nothing
    is waited for and no signal is sent. *)
Theorem run_pw_spawn_failure (input_file : path) (pw_exec : string)
    (output_path error_path dir : path) (timeout : option Z)
    (mpi_cmd : option (list string)) (e : env) (s : state)
    (f1 f2 : store) (lo le : loc) :
  fs_open_w (fs s) (origin e output_path) (p_parts output_path) = inr (f1, lo) ->
  fs_open_w f1 (origin e error_path) (p_parts error_path) = inr (f2, le) ->
  launch e f2 (command mpi_cmd pw_exec input_file) dir = None ->
  exists x,
    run_pw input_file pw_exec output_path error_path dir timeout mpi_cmd e s
    = (Raise (OSError x),
       {| fs := f2;
          trace := trace s
            ++ EvLog INFO (MsgRunning (command mpi_cmd pw_exec input_file))
               :: EvOpen output_path :: EvOpen error_path
               :: EvSpawn (command mpi_cmd pw_exec input_file) dir :: nil |}).
Proof.
  intros Ho He Hl. exists ENOENT.
  unfold run_pw. cbv zeta. fold (command mpi_cmd pw_exec input_file).
  mstep ltac:(reflexivity).
  mstep ltac:(unfold open_w; cbn [fs emit]; rewrite Ho; reflexivity).
  mstep ltac:(unfold open_w; cbn [fs emit set_fs]; rewrite He; reflexivity).
  erewrite bind_raise
    by (unfold spawn; cbn [fs emit set_fs]; rewrite Hl; reflexivity).
  unfold emit, set_fs. cbn [fs trace]. do 2 f_equal. now rewrite !app_cons_assoc.
Qed.

Lemma run_pw_spawn_failure_witness :
  exists x s',
    run_pw (Path "/home/u/si.in") "/usr/bin/pw.x" (Path "si.out") (Path "si.err")
      (Path "/home/u") None None Cases.env_no_launch Sample.st0
    = (Raise (OSError x), s').
Proof.
  edestruct (run_pw_spawn_failure (Path "/home/u/si.in") "/usr/bin/pw.x" (Path "si.out")
               (Path "si.err") (Path "/home/u") None None Cases.env_no_launch
               Sample.st0)
    as [x H]; [reflexivity ..|].
  exists x. eexists. exact H.
Defined.

(** X4. Without a timeout, a solver that never exits keeps the
    supervisor waiting for ever: no exit code is returned and no signal
    is ever sent. *)
Theorem run_pw_waits_for_ever (input_file : path) (pw_exec : string)
    (output_path error_path dir : path)
    (mpi_cmd : option (list string)) (e : env) (s : state)
    (f1 f2 : store) (lo le : loc) (b : solver) :
  fs_open_w (fs s) (origin e output_path) (p_parts output_path) = inr (f1, lo) ->
  fs_open_w f1 (origin e error_path) (p_parts error_path) = inr (f2, le) ->
  launch e f2 (command mpi_cmd pw_exec input_file) dir = Some b ->
  lifetime b = None ->
  run_pw input_file pw_exec output_path error_path dir None mpi_cmd e s
  = (Hang,
     {| fs := f2;
        trace := trace s
          ++ EvLog INFO (MsgRunning (command mpi_cmd pw_exec input_file))
             :: EvOpen output_path :: EvOpen error_path
             :: EvSpawn (command mpi_cmd pw_exec input_file) dir
             :: EvWait None Blocked :: nil |}).
Proof.
  intros Ho He Hl Hlife.
  assert (Hw : proc_wait None (Popen b) = (Blocked, Popen b)).
  { unfold proc_wait, Popen, exit_of. cbn. now rewrite Hlife. }
  unfold run_pw. cbv zeta. fold (command mpi_cmd pw_exec input_file).
  mstep ltac:(reflexivity).
  mstep ltac:(unfold open_w; cbn [fs emit]; rewrite Ho; reflexivity).
  mstep ltac:(unfold open_w; cbn [fs emit set_fs]; rewrite He; reflexivity).
  mstep ltac:(unfold spawn; cbn [fs emit set_fs]; rewrite Hl; reflexivity).
  erewrite bind_hang by (unfold wait; rewrite Hw; reflexivity).
  unfold emit, set_fs. cbn [fs trace]. do 2 f_equal. now rewrite !app_cons_assoc.
Qed.

Lemma run_pw_waits_for_ever_witness :
  fst (run_pw (Path "/home/u/si.in") "/usr/bin/pw.x" (Path "si.out") (Path "si.err")
         (Path "/home/u") None None (Sample.env_of (Sample.stubborn "")) Sample.st0)
  = Hang.
Proof.
  erewrite (run_pw_waits_for_ever (Path "/home/u/si.in") "/usr/bin/pw.x" (Path "si.out")
              (Path "si.err") (Path "/home/u") None
              (Sample.env_of (Sample.stubborn "")) Sample.st0);
    reflexivity.
Defined.

(** X21. A timeout too large for a floating-point number: the wait
    fails with an overflow error as soon as it is asked, after both sinks
    have been opened and the solver has been started; the error leaves
    the supervisor, which sends no signal and does not wait again, so
    that the solver is left to itself. *)
Theorem run_pw_timeout_overflow (input_file : path) (pw_exec : string)
    (output_path error_path dir : path) (t : Z)
    (mpi_cmd : option (list string)) (e : env) (s : state)
    (f1 f2 : store) (lo le : loc) (b : solver) :
  fs_open_w (fs s) (origin e output_path) (p_parts output_path) = inr (f1, lo) ->
  fs_open_w f1 (origin e error_path) (p_parts error_path) = inr (f2, le) ->
  launch e f2 (command mpi_cmd pw_exec input_file) dir = Some b ->
  (2 ^ 1024 - 2 ^ 970 <= Z.abs t)%Z ->
  run_pw input_file pw_exec output_path error_path dir (Some t) mpi_cmd e s
  = (Raise OverflowError,
     {| fs := f2;
        trace := trace s
          ++ EvLog INFO (MsgRunning (command mpi_cmd pw_exec input_file))
             :: EvOpen output_path :: EvOpen error_path
             :: EvSpawn (command mpi_cmd pw_exec input_file) dir
             :: EvWait (Some t) Overflow :: nil |}).
Proof.
  intros Ho He Hl Ht.
  assert (Hw : proc_wait (Some t) (Popen b) = (Overflow, Popen b)).
  { apply proc_wait_overflow. split; [reflexivity|]. exists t.
    split; [reflexivity|]. now apply float_overflows_spec. }
  unfold run_pw. cbv zeta. fold (command mpi_cmd pw_exec input_file).
  mstep ltac:(reflexivity).
  mstep ltac:(unfold open_w; cbn [fs emit]; rewrite Ho; reflexivity).
  mstep ltac:(unfold open_w; cbn [fs emit set_fs]; rewrite He; reflexivity).
  mstep ltac:(unfold spawn; cbn [fs emit set_fs]; rewrite Hl; reflexivity).
  erewrite bind_raise by (unfold wait; rewrite Hw; reflexivity).
  unfold emit, set_fs. cbn [fs trace]. do 2 f_equal. now rewrite !app_cons_assoc.
Qed.

Lemma run_pw_timeout_overflow_witness :
  fst (run_pw (Path "/home/u/si.in") "/usr/bin/pw.x" (Path "si.out") (Path "si.err")
         (Path "/home/u") (Some (2 ^ 1024)%Z) None
         (Sample.env_of (Sample.quick "")) Sample.st0)
  = Raise OverflowError.
Proof.
  erewrite (run_pw_timeout_overflow (Path "/home/u/si.in") "/usr/bin/pw.x"
              (Path "si.out") (Path "si.err") (Path "/home/u") (2 ^ 1024)%Z None
              (Sample.env_of (Sample.quick "")) Sample.st0);
    [reflexivity|reflexivity|reflexivity|reflexivity|].
  apply Z.leb_le. vm_compute. reflexivity.
Defined.

(** ** The exit code of the program, continued *)

(** X5. A deck of which the existence test says that it is not there:
    the program ends with exit code 1 after that one look and one log
    record; the executable is never looked for and the file store is as
    it was. *)
Theorem main_missing_input (a : args) (e : env) (s : state) :
  fst (path_exists (input_path_of a e) e s) = Ret false ->
  main a e s
  = (Ret 1%Z,
     {| fs := fs s;
        trace := trace s
          ++ EvExists (input_path_of a e)
             :: EvLog ERROR (MsgInputNotFound (input_path_of a e)) :: nil |}).
Proof.
  intros H.
  assert (Hx : fs_exists (fs s) (origin e (input_path_of a e))
                 (p_parts (input_path_of a e)) = false).
  { unfold path_exists in H. cbn [fst] in H. congruence. }
  unfold main.
  mstep ltac:(unfold resolve; reflexivity).
  fold (input_path_of a e).
  mstep ltac:(unfold path_exists; rewrite Hx; reflexivity).
  cbn [negb]. unfold bind, log, ret, emit. cbn [fs trace].
  do 2 f_equal. now rewrite !app_cons_assoc.
Qed.

Lemma main_missing_input_witness :
  fst (main {| input := "../v/gan.in"; pw := "pw.x"; mpi := None; timeout := None;
               run_dir := "qe_runs"; out := None; no_timestamp := false |}
         (Sample.env_of (Sample.quick "")) Sample.st0)
  = Ret 1%Z.
Proof.
  rewrite main_missing_input; reflexivity.
Defined.

(** X6. When the classifier reports no error, the exit code of the
    program is the one the supervisor returned, whatever it is; a missing
    success marker only adds a warning to the log. The classifier and the
    mapping leave the file store alone. *)
Theorem main_passes_exit_code (a : args) (e : env) (s s4 : state) (code : Z)
    (has_success : bool) :
  supervised a e s code s4 ->
  fst (_detect_qe_errors (output_path_of a e) e s4) = Ret (false, has_success) ->
  main a e s
  = (Ret code,
     {| fs := fs s4;
        trace := trace s4
          ++ EvReadText (output_path_of a e)
             :: (if has_success then nil
                 else EvLog WARNING (MsgNoSuccess (output_path_of a e)) :: nil) |}).
Proof.
  intros (exe & s1 & s2 & s3 & Hin & Hfind & Hexe & Hdirs & Hmk & Hrun) Hdet.
  destruct (detect_total (output_path_of a e) e s4) as (he & hs & Hd).
  rewrite Hd in Hdet. cbn [fst] in Hdet. injection Hdet as -> ->.
  unfold main.
  mstep ltac:(unfold resolve; reflexivity).
  fold (input_path_of a e).
  mstep ltac:(unfold path_exists; cbn [origin p_abs input_path_of]; rewrite Hin;
              reflexivity).
  cbn [negb].
  mstep ltac:(exact Hfind).
  assert (Ht : truthy (Some exe) = true).
  { unfold truthy. now apply negb_true_iff, String.eqb_neq. }
  rewrite Ht. cbn [negb default id from_option].
  mstep ltac:(exact Hdirs).
  mstep ltac:(reflexivity).
  fold (run_dir_of a e). fold (output_path_of a e). fold (error_path_of a e).
  mstep ltac:(exact Hmk).
  mstep ltac:(exact Hrun).
  mstep ltac:(exact Hd).
  cbv beta iota.
  destruct has_success; cbn [negb]; unfold bind, log, ret, emit; cbn [fs trace];
    do 2 f_equal; now rewrite ?app_cons_assoc.
Qed.

Lemma sample_run_clean :
  exists s4,
    supervised Sample.args0 (Sample.env_of (Sample.quick "JOB DONE.")) Sample.st0 0%Z s4
    /\ fst (_detect_qe_errors
              (output_path_of Sample.args0 (Sample.env_of (Sample.quick "JOB DONE.")))
              (Sample.env_of (Sample.quick "JOB DONE.")) s4)
       = Ret (false, true).
Proof.
  eexists. split.
  - unfold supervised. do 4 eexists.
    split; [reflexivity|].
    split; [apply run_result; vm_compute; reflexivity|].
    split; [discriminate|].
    split; [apply run_result; vm_compute; reflexivity|].
    split; apply run_result; vm_compute; reflexivity.
  - vm_compute. reflexivity.
Qed.

Lemma main_passes_exit_code_witness :
  fst (main Sample.args0 (Sample.env_of (Sample.quick "JOB DONE.")) Sample.st0)
  = Ret 0%Z.
Proof.
  destruct sample_run_clean as (s4 & Hsup & Hdet).
  now rewrite (main_passes_exit_code _ _ _ s4 0%Z true Hsup Hdet).
Defined.

Lemma read_error_exists (strict : bool) (f : store) (start : loc) (cs : list string) :
  fs_read_text strict f start cs = inl UnicodeDecodeError ->
  fs_exists f start cs = true.
Proof.
  unfold fs_read_text, fs_exists.
  destruct (namei f start cs) as [x|l]; [discriminate|].
  now destruct (node_at f l) as [[|[] [t|t]]|].
Qed.

(** X7. A deck whose bytes cannot be decoded is not among the failures
    the run directory manager passes over: the decoding error ends the
    program, after the executable has been found and before any directory
    is made or any process started. *)
Theorem main_undecodable_deck (a : args) (e : env) (s : state) (r : option string) :
  fs_read_text true (fs s) nil (p_parts (input_path_of a e)) = inl UnicodeDecodeError ->
  fst (_find_pw_executable (pw a) e s) = Ret r ->
  truthy r = true ->
  exists ev,
    is_probe ev = true
    /\ main a e s
       = (Raise UnicodeDecodeError,
          {| fs := fs s;
             trace := trace s
               ++ EvExists (input_path_of a e) :: ev
                  :: EvReadText (input_path_of a e) :: nil |}).
Proof.
  intros Hread Hr Ht.
  destruct (find_pw_executable_probe (pw a) e s) as (r' & ev & Hev & Hfind).
  rewrite (Hfind s eq_refl) in Hr. cbn [fst] in Hr. injection Hr as ->.
  exists ev. split; [exact Hev|].
  unfold main.
  mstep ltac:(unfold resolve; reflexivity).
  fold (input_path_of a e).
  mstep ltac:(unfold path_exists; cbn [origin p_abs input_path_of];
              rewrite (read_error_exists _ _ _ _ Hread); reflexivity).
  cbn [negb].
  mstep ltac:(apply Hfind; reflexivity).
  rewrite Ht. cbn [negb].
  erewrite bind_raise.
  2:{ unfold _ensure_output_dirs, try_OSError, read_text.
      cbn [origin p_abs input_path_of fs emit]. rewrite Hread. reflexivity. }
  unfold emit. cbn [fs trace]. do 2 f_equal. now rewrite !app_cons_assoc.
Qed.

Lemma main_undecodable_deck_witness :
  exists ev,
    is_probe ev = true
    /\ main Sample.args0 (Sample.env_of (Sample.quick "")) Cases.st_undecodable
       = (Raise UnicodeDecodeError,
          {| fs := fs Cases.st_undecodable;
             trace := trace Cases.st_undecodable
               ++ EvExists (input_path_of Sample.args0 (Sample.env_of (Sample.quick "")))
                  :: ev
                  :: EvReadText (input_path_of Sample.args0
                                   (Sample.env_of (Sample.quick ""))) :: nil |}).
Proof.
  apply (main_undecodable_deck _ _ _ (Some "/usr/bin/pw.x")); reflexivity.
Defined.

(** ** The run directory manager, continued *)



(** X9. A regular file where the output directory should be: making the
    directory fails, the error leaves the manager as it is, nothing in
    the file store has changed, and the resource directory is not looked
    at any more. *)
Theorem ensure_output_dirs_blocked (input_path : path) (e : env) (s : state)
    (deck v : string) (l : loc) (r : bool) (d : content) :
  fs_read_text true (fs s) (origin e input_path) (p_parts input_path)
  = inr deck ->
  _parse_namelist_value deck "outdir" = Some v ->
  namei (fs s) (origin e (declared_path input_path v))
    (p_parts (declared_path input_path v)) = inr l ->
  node_at (fs s) l = Some (File r d) ->
  _ensure_output_dirs input_path e s
  = (Raise (OSError EEXIST),
     {| fs := fs s;
        trace := trace s ++ EvReadText input_path
                   :: EvMkdir (declared_path input_path v) :: nil |}).
Proof.
  intros Hread Hparse Hn Hl.
  rewrite (ensure_output_dirs_read _ _ _ _ Hread), Hparse. cbv zeta.
  now rewrite (mkdir_parents_file _ _ _ _ _ _ _ Hn Hl).
Qed.

Lemma ensure_output_dirs_blocked_witness :
  fst (_ensure_output_dirs (Path "/home/u/si.in") (Sample.env_of (Sample.quick ""))
         {| fs := <[ "home" :: "u" :: "out" :: "tmp" :: nil := File true (Text "") ]>
                    (<[ "home" :: "u" :: "out" :: nil := Dir ]> Sample.fs0);
            trace := nil |})
  = Raise (OSError EEXIST).
Proof.
  erewrite (ensure_output_dirs_blocked (Path "/home/u/si.in")
              (Sample.env_of (Sample.quick "")) _ Sample.deck "./out/tmp/");
    [reflexivity|vm_compute; reflexivity ..].
Defined.

Lemma ensure_output_dirs_oserror (input_path : path) (e : env) (s : state)
    (o : oserror) :
  fs_read_text true (fs s) (origin e input_path) (p_parts input_path)
  = inl (OSError o) ->
  _ensure_output_dirs input_path e s = (Ret tt, emit (EvReadText input_path) s).
Proof.
  intros H. unfold _ensure_output_dirs, try_OSError, read_text. now rewrite H.
Qed.

(** X10. Preparing the directories twice is the same as preparing them
    once: after a run of the manager that returned normally, a second run
    returns normally as well and leaves the file store as the first one
    left it. *)
Theorem ensure_output_dirs_twice (input_path : path) (e : env) (s s1 : state) :
  _ensure_output_dirs input_path e s = (Ret tt, s1) ->
  exists s2,
    _ensure_output_dirs input_path e s1 = (Ret tt, s2) /\ fs s2 = fs s1.
Proof.
  intros H1.
  destruct (fs_read_text true (fs s) (origin e input_path) (p_parts input_path))
    as [[o| | |]|deck] eqn:Hread.
  - rewrite (ensure_output_dirs_oserror _ _ _ o Hread) in H1.
    injection H1 as <-. eexists. split.
    + now rewrite (ensure_output_dirs_oserror _ _ (emit _ s) o Hread).
    + reflexivity.
  - unfold _ensure_output_dirs, try_OSError, read_text in H1.
    rewrite Hread in H1. discriminate.
  - unfold _ensure_output_dirs, try_OSError, read_text in H1.
    rewrite Hread in H1. discriminate.
  - unfold _ensure_output_dirs, try_OSError, read_text in H1.
    rewrite Hread in H1. discriminate.
  - rewrite (ensure_output_dirs_read _ _ _ _ Hread) in H1.
    destruct (_parse_namelist_value deck "outdir") as [v|] eqn:Hparse.
    + cbv zeta in H1.
      destruct (mkdir_parents _ _ (fs s) _ _) as [[x|] f'] eqn:Hmk; [discriminate|].
      injection H1 as <-.
      destruct (mkdir_parents_sound _ _ _ _ _ _ (Nat.le_refl _) Hmk) as [G D].
      pose proof (read_grows true _ _ _ _ _ _ _ G Hread) as Hread'.
      eexists. split.
      * rewrite (ensure_output_dirs_read _ _ {| fs := f'; trace := _ |} deck Hread').
        rewrite Hparse. cbv zeta. cbn [fs].
        rewrite (mkdir_parents_again _ _ _ _ _ D). reflexivity.
      * reflexivity.
    + injection H1 as <-. eexists. split.
      * rewrite (ensure_output_dirs_read _ _ {| fs := fs s; trace := _ |} deck Hread).
        rewrite Hparse. reflexivity.
      * reflexivity.
Qed.

Lemma ensure_output_dirs_twice_witness :
  exists s2,
    _ensure_output_dirs (Path "/home/u/si.in") (Sample.env_of (Sample.quick ""))
      (snd (_ensure_output_dirs (Path "/home/u/si.in")
              (Sample.env_of (Sample.quick "")) Sample.st0))
    = (Ret tt, s2)
    /\ fs s2
       = fs (snd (_ensure_output_dirs (Path "/home/u/si.in")
                    (Sample.env_of (Sample.quick "")) Sample.st0)).
Proof.
  apply (ensure_output_dirs_twice _ _ Sample.st0).
  apply run_result. vm_compute. reflexivity.
Defined.

Lemma is_dir_exists (f : store) (start : loc) (cs : list string) :
  fs_is_dir f start cs = true -> fs_exists f start cs = true.
Proof.
  unfold fs_is_dir, fs_exists. destruct (namei f start cs) as [x|l]; [auto|].
  now destruct (node_at f l).
Qed.

(** X11. The resource directory is looked for after the output
    directory has been made: a deck that names one directory for both
    gets it made and gets no warning, even when it was not there
    before. *)
Theorem ensure_output_dirs_shared (input_path : path) (e : env) (s s1 : state)
    (deck v : string) :
  fs_read_text true (fs s) (origin e input_path) (p_parts input_path) = inr deck ->
  _parse_namelist_value deck "outdir" = Some v ->
  _parse_namelist_value deck "pseudo_dir" = Some v ->
  _ensure_output_dirs input_path e s = (Ret tt, s1) ->
  trace s1
  = trace s ++ EvReadText input_path :: EvMkdir (declared_path input_path v)
      :: EvExists (declared_path input_path v) :: nil
  /\ fs_is_dir (fs s1) (origin e (declared_path input_path v))
       (p_parts (declared_path input_path v)) = true.
Proof.
  intros Hread Ho Hp H1.
  rewrite (ensure_output_dirs_read _ _ _ _ Hread), Ho in H1. cbv zeta in H1.
  destruct (mkdir_parents _ _ (fs s) _ _) as [[x|] f'] eqn:Hmk; [discriminate|].
  injection H1 as <-. cbn [fs trace].
  destruct (mkdir_parents_sound _ _ _ _ _ _ (Nat.le_refl _) Hmk) as [_ D].
  rewrite firstn_all in D. split; [|exact D].
  unfold pseudo_events. rewrite Hp. cbv zeta.
  now rewrite (is_dir_exists _ _ _ D).
Qed.

Lemma ensure_output_dirs_shared_witness :
  trace (snd (_ensure_output_dirs (Path "/home/u/si.in")
                (Sample.env_of (Sample.quick "")) Cases.st_shared))
  = trace Cases.st_shared ++ EvReadText (Path "/home/u/si.in")
      :: EvMkdir (declared_path (Path "/home/u/si.in") "work")
      :: EvExists (declared_path (Path "/home/u/si.in") "work") :: nil
  /\ fs_is_dir
       (fs (snd (_ensure_output_dirs (Path "/home/u/si.in")
                   (Sample.env_of (Sample.quick "")) Cases.st_shared)))
       (origin (Sample.env_of (Sample.quick ""))
          (declared_path (Path "/home/u/si.in") "work"))
       (p_parts (declared_path (Path "/home/u/si.in") "work")) = true.
Proof.
  apply (ensure_output_dirs_shared _ _ Cases.st_shared _ Cases.deck_shared);
    [vm_compute; reflexivity ..|].
  apply run_result. vm_compute. reflexivity.
Defined.

(** ** The extractor, continued *)

Lemma occurs_mid (a m b : string) : occurs m (a +:+ m +:+ b).
Proof. now exists a, b. Qed.

Lemma parse_some_inv (text key v : string) :
  plain_key key ->
  _parse_namelist_value text key = Some v ->
  exists pre K mid rest,
    text = pre +:+ K +:+ mid +:+ v +:+ rest
    /\ lower_str K = lower_str key
    /\ occurs "=" mid
    /\ v <> "" /\ all_chars value_char v = true
    /\ head_is value_char rest = false.
Proof.
  intros Hk H. rewrite (parse_first_value text key Hk) in H.
  apply first_value_spec in H as (pre & t & -> & Hv & _).
  apply value_at_declares in Hv
    as (K & ws1 & ws2 & q & rest & -> & HK & _ & _ & _ & Hv & Hav & Hr).
  exists pre, K, (ws1 +:+ "=" +:+ ws2 +:+ q), rest.
  split; [now rewrite !sapp_assoc|].
  split; [exact HK|]. split; [|auto].
  exists ws1, (ws2 +:+ q). reflexivity.
Qed.

(** X12. A value the extractor returns is never empty, holds no comma,
    quote or white space, stands in the text after the key (in some
    letter case) and an equals sign, and ends where the text ends or at a
    comma, a quote or white space. *)
Theorem parse_namelist_value_shape (text key v : string) :
  plain_key key ->
  _parse_namelist_value text key = Some v ->
  v <> ""
  /\ all_chars value_char v = true
  /\ exists pre K mid rest,
       text = pre +:+ K +:+ mid +:+ v +:+ rest
       /\ lower_str K = lower_str key
       /\ occurs "=" mid
       /\ head_is value_char rest = false.
Proof.
  intros Hk H.
  destruct (parse_some_inv text key v Hk H)
    as (pre & K & mid & rest & Ht & HK & Hm & Hv & Hav & Hr).
  split; [exact Hv|]. split; [exact Hav|]. exists pre, K, mid, rest. auto.
Qed.

Lemma parse_namelist_value_shape_witness :
  "./out/" <> ""
  /\ all_chars value_char "./out/" = true
  /\ exists pre K mid rest,
       Sample.nl +:+ "  Outdir='./out/', prefix='si'"
       = pre +:+ K +:+ mid +:+ "./out/" +:+ rest
       /\ lower_str K = lower_str "outdir"
       /\ occurs "=" mid
       /\ head_is value_char rest = false.
Proof.
  apply (parse_namelist_value_shape _ "outdir"); reflexivity.
Defined.

(** X13. A text in which the key does not occur in any letter case, or
    which holds no equals sign, declares nothing: the extractor returns
    nothing. *)
Theorem parse_namelist_value_absent (text key : string) :
  plain_key key ->
  (forall K, lower_str K = lower_str key -> ~ occurs K text)
  \/ ~ occurs "=" text ->
  _parse_namelist_value text key = None.
Proof.
  intros Hk H.
  destruct (_parse_namelist_value text key) as [v|] eqn:E; [|reflexivity].
  destruct (parse_some_inv text key v Hk E)
    as (pre & K & mid & rest & -> & HK & (m1 & m2 & ->) & _).
  destruct H as [H|H]; exfalso.
  - apply (H K HK). apply occurs_mid.
  - apply H. exists (pre +:+ K +:+ m1), (m2 +:+ v +:+ rest).
    now rewrite !sapp_assoc.
Qed.

Lemma no_char_no_occurrence (c : ascii) (text : string) :
  char_in c text = false -> ~ occurs (String c "") text.
Proof. intros H O. apply char_in_occurs in O. congruence. Qed.

Lemma parse_namelist_value_absent_witness :
  _parse_namelist_value ("&control" +:+ Sample.nl +:+ "  outdir './out/'") "outdir"
  = None.
Proof.
  apply parse_namelist_value_absent; [reflexivity|].
  right. apply no_char_no_occurrence. reflexivity.
Defined.

(** ** The classifier, continued *)

(** X14. Whatever is at the output path, a text, bytes that do not
    decode, a directory or nothing, the classifier returns a pair of
    flags; it never fails and it leaves the file store alone. *)
Theorem detect_never_fails (output_path : path) (e : env) (s : state) :
  exists has_error has_success,
    _detect_qe_errors output_path e s
    = (Ret (has_error, has_success),
       {| fs := fs s; trace := trace s ++ EvReadText output_path :: nil |}).
Proof.
  destruct (detect_total output_path e s) as (he & hs & H).
  exists he, hs. exact H.
Qed.


(** * Properties of the fetcher *)

Lemma fbind_get {B} (url : string) (t : Z) (k : Fetcher.response -> Fetcher.FM B)
    (e : Fetcher.fenv) (s : Fetcher.fstate) :
  Fetcher.fbind (Fetcher.get url t) k e s
  = k (Fetcher.http e (Fetcher.asked s) url t) e
      {| Fetcher.ffs := Fetcher.ffs s;
         Fetcher.asked := Fetcher.asked s ++ (url, t) :: nil;
         Fetcher.flog := Fetcher.flog s |}.
Proof. reflexivity. Qed.

Lemma fbind_log {B} (l : level) (m : Fetcher.fmessage) (k : unit -> Fetcher.FM B)
    (e : Fetcher.fenv) (s : Fetcher.fstate) :
  Fetcher.fbind (Fetcher.flog_msg l m) k e s
  = k tt e {| Fetcher.ffs := Fetcher.ffs s; Fetcher.asked := Fetcher.asked s;
              Fetcher.flog := Fetcher.flog s ++ (l, m) :: nil |}.
Proof. reflexivity. Qed.

Lemma fbind_ret {A B} (a : A) (k : A -> Fetcher.FM B)
    (e : Fetcher.fenv) (s : Fetcher.fstate) :
  Fetcher.fbind (Fetcher.fret a) k e s = k a e s.
Proof. reflexivity. Qed.

Lemma fbind_write {B} (name body : string) (k : unit -> Fetcher.FM B)
    (e : Fetcher.fenv) (s : Fetcher.fstate) :
  Fetcher.fbind (Fetcher.write_file name body) k e s
  = match Fetcher.fs_write_file (Fetcher.ffs s) (Fetcher.fcwd e) name
            (Fetcher.stored e body) with
    | inr f =>
        k tt e {| Fetcher.ffs := f; Fetcher.asked := Fetcher.asked s;
                  Fetcher.flog := Fetcher.flog s |}
    | inl x => (Raise (OSError x), s)
    end.
Proof.
  unfold Fetcher.fbind, Fetcher.write_file.
  now destruct (Fetcher.fs_write_file _ _ _ _).
Qed.

Lemma Fetcher_fbind_assoc {A B C} (m : Fetcher.FM A) (k : A -> Fetcher.FM B)
    (h : B -> Fetcher.FM C) (e : Fetcher.fenv) (s : Fetcher.fstate) :
  Fetcher.fbind (Fetcher.fbind m k) h e s
  = Fetcher.fbind m (fun a => Fetcher.fbind (k a) h) e s.
Proof.
  unfold Fetcher.fbind. now destruct (m e s) as [[a| |] s'].
Qed.

Lemma try_suffixes_flat (element output_dir base_url : string)
    (suffixes : list string) (e : Fetcher.fenv) (s : Fetcher.fstate) :
  Fetcher.try_suffixes element output_dir base_url suffixes e s
  = Fetcher.try_urls element output_dir
      (map (fun suffix => Fetcher.format1 base_url (element +:+ suffix)) suffixes) e s.
Proof.
  revert s. induction suffixes as [|suffix suffixes IH]; intros s; [reflexivity|].
  cbn [Fetcher.try_suffixes Fetcher.try_urls map]. rewrite !fbind_get.
  destruct (Fetcher.http e (Fetcher.asked s) _ 5) as [code body|]; [|apply IH].
  destruct (code =? 200)%Z; [reflexivity|apply IH].
Qed.

Lemma try_urls_app (element output_dir : string) (l1 l2 : list string)
    (e : Fetcher.fenv) (s : Fetcher.fstate) :
  Fetcher.try_urls element output_dir (l1 ++ l2) e s
  = match Fetcher.try_urls element output_dir l1 e s with
    | (Ret None, s') => Fetcher.try_urls element output_dir l2 e s'
    | r => r
    end.
Proof.
  revert s. induction l1 as [|url l1 IH]; intros s; [reflexivity|].
  cbn [app Fetcher.try_urls]. rewrite !fbind_get.
  destruct (Fetcher.http e (Fetcher.asked s) url 5) as [code body|]; [|apply IH].
  destruct (code =? 200)%Z; [|apply IH].
  unfold Fetcher.fbind.
  destruct (Fetcher.write_file _ body e _) as [[[]| |] s'']; reflexivity.
Qed.

Lemma try_bases_flat (element output_dir : string) (bases : list string)
    (e : Fetcher.fenv) (s : Fetcher.fstate) :
  Fetcher.try_bases element output_dir bases e s
  = Fetcher.try_urls element output_dir
      (flat_map
         (fun base_url =>
            map (fun suffix => Fetcher.format1 base_url (element +:+ suffix))
              Fetcher.UPF_SUFFIXES) bases) e s.
Proof.
  revert s. induction bases as [|base bases IH]; intros s; [reflexivity|].
  cbn [Fetcher.try_bases flat_map]. rewrite try_urls_app.
  unfold Fetcher.fbind. rewrite try_suffixes_flat.
  destruct (Fetcher.try_urls _ _ _ e s) as [[[name|]| |] s']; try reflexivity.
  apply IH.
Qed.

(** The flat search, against the first candidate that is answered. *)
Lemma try_urls_run (element output_dir : string) (urls : list string)
    (e : Fetcher.fenv) (s : Fetcher.fstate) :
  exists lg,
    Fetcher.try_urls element output_dir urls e s
    = match Fetcher.first_hit e (Fetcher.asked s) (map (fun u => (u, 5%Z)) urls) with
      | None =>
          (Ret None,
           {| Fetcher.ffs := Fetcher.ffs s;
              Fetcher.asked := Fetcher.asked s ++ map (fun u => (u, 5%Z)) urls;
              Fetcher.flog := Fetcher.flog s |})
      | Some (before, c, body) =>
          match Fetcher.fs_write_file (Fetcher.ffs s) (Fetcher.fcwd e)
                  (Fetcher.os_path_join output_dir (element +:+ ".UPF"))
                  (Fetcher.stored e body) with
          | inr f' =>
              (Ret (Some (Fetcher.os_path_join output_dir (element +:+ ".UPF"))),
               {| Fetcher.ffs := f';
                  Fetcher.asked := Fetcher.asked s ++ before ++ c :: nil;
                  Fetcher.flog := Fetcher.flog s ++ lg |})
          | inl x =>
              (Raise (OSError x),
               {| Fetcher.ffs := Fetcher.ffs s;
                  Fetcher.asked := Fetcher.asked s ++ before ++ c :: nil;
                  Fetcher.flog := Fetcher.flog s |})
          end
      end.
Proof.
  revert s. induction urls as [|url urls IH]; intros s.
  - exists nil. cbn. destruct s. cbn. now rewrite List.app_nil_r.
  - cbn [Fetcher.try_urls map Fetcher.first_hit]. rewrite fbind_get.
    set (s1 := {| Fetcher.ffs := Fetcher.ffs s;
                  Fetcher.asked := Fetcher.asked s ++ (url, 5%Z) :: nil;
                  Fetcher.flog := Fetcher.flog s |}).
    assert (Later : exists lg,
      Fetcher.try_urls element output_dir urls e s1
      = match
          match Fetcher.first_hit e (Fetcher.asked s ++ (url, 5%Z) :: nil)
                  (map (fun u => (u, 5%Z)) urls) with
          | Some (before, c, body) => Some ((url, 5%Z) :: before, c, body)
          | None => None
          end
        with
        | None =>
            (Ret None,
             {| Fetcher.ffs := Fetcher.ffs s;
                Fetcher.asked := Fetcher.asked s
                                   ++ (url, 5%Z) :: map (fun u => (u, 5%Z)) urls;
                Fetcher.flog := Fetcher.flog s |})
        | Some (before, c, body) =>
            match Fetcher.fs_write_file (Fetcher.ffs s) (Fetcher.fcwd e)
                    (Fetcher.os_path_join output_dir (element +:+ ".UPF"))
                    (Fetcher.stored e body) with
            | inr f' =>
                (Ret (Some (Fetcher.os_path_join output_dir (element +:+ ".UPF"))),
                 {| Fetcher.ffs := f';
                    Fetcher.asked := Fetcher.asked s ++ before ++ c :: nil;
                    Fetcher.flog := Fetcher.flog s ++ lg |})
            | inl x =>
                (Raise (OSError x),
                 {| Fetcher.ffs := Fetcher.ffs s;
                    Fetcher.asked := Fetcher.asked s ++ before ++ c :: nil;
                    Fetcher.flog := Fetcher.flog s |})
            end
        end).
    { destruct (IH s1) as [lg H]. exists lg. rewrite H. subst s1. cbn.
      destruct (Fetcher.first_hit e _ _) as [[[before c] body]|];
        [|now rewrite app_cons_assoc].
      destruct (Fetcher.fs_write_file _ _ _ _); now rewrite app_cons_assoc. }
    destruct (Fetcher.http e (Fetcher.asked s) url 5) as [code body|];
      [destruct (code =? 200)%Z|]; try exact Later.
    eexists. unfold Fetcher.fbind, Fetcher.write_file. subst s1. cbn.
    destruct (Fetcher.fs_write_file _ _ _ _); reflexivity.
Qed.

Lemma first_hit_none (e : Fetcher.fenv) (hist cs : list (string * Z)) :
  Fetcher.misses e hist cs = true -> Fetcher.first_hit e hist cs = None.
Proof.
  revert hist. induction cs as [|[url t] cs IH]; intros hist H; [reflexivity|].
  cbn [Fetcher.misses Fetcher.first_hit] in *.
  apply andb_true_iff in H as [H1 H2]. rewrite (IH _ H2).
  destruct (Fetcher.http e hist url t) as [code body|]; [|reflexivity].
  cbn in H1. now destruct (code =? 200)%Z.
Qed.

Lemma first_hit_intro (e : Fetcher.fenv) (hist before : list (string * Z))
    (c : string * Z) (body : string) (after : list (string * Z)) :
  Fetcher.misses e hist before = true ->
  Fetcher.http e (hist ++ before) (fst c) (snd c) = Fetcher.Response 200 body ->
  Fetcher.first_hit e hist (before ++ c :: after) = Some (before, c, body).
Proof.
  revert hist. induction before as [|[url t] before IH]; intros hist Hm Hh.
  - rewrite List.app_nil_r in Hh. destruct c as [url t].
    cbn [app Fetcher.first_hit fst snd] in *. now rewrite Hh.
  - cbn [Fetcher.misses] in Hm. apply andb_true_iff in Hm as [H1 H2].
    cbn [app Fetcher.first_hit].
    rewrite (IH (hist ++ (url, t) :: nil) H2) by now rewrite app_cons_assoc.
    destruct (Fetcher.http e hist url t) as [code b|]; [|reflexivity].
    cbn in H1. now destruct (code =? 200)%Z.
Qed.

(** [download_upf], against the first candidate that is answered. *)
Lemma download_upf_run (element output_dir : string)
    (e : Fetcher.fenv) (s : Fetcher.fstate) :
  exists lg,
    Fetcher.download_upf element output_dir e s
    = match Fetcher.first_hit e (Fetcher.asked s) (Fetcher.candidates element) with
      | None =>
          (Ret None,
           {| Fetcher.ffs := Fetcher.ffs s;
              Fetcher.asked := Fetcher.asked s ++ Fetcher.candidates element;
              Fetcher.flog := Fetcher.flog s ++ lg |})
      | Some (before, c, body) =>
          match Fetcher.fs_write_file (Fetcher.ffs s) (Fetcher.fcwd e)
                  (Fetcher.os_path_join output_dir (element +:+ ".UPF"))
                  (Fetcher.stored e body) with
          | inr f' =>
              (Ret (Some (Fetcher.os_path_join output_dir (element +:+ ".UPF"))),
               {| Fetcher.ffs := f';
                  Fetcher.asked := Fetcher.asked s ++ before ++ c :: nil;
                  Fetcher.flog := Fetcher.flog s ++ lg |})
          | inl x =>
              (Raise (OSError x),
               {| Fetcher.ffs := Fetcher.ffs s;
                  Fetcher.asked := Fetcher.asked s ++ before ++ c :: nil;
                  Fetcher.flog := Fetcher.flog s ++ lg |})
          end
      end.
Proof.
  assert (Generic : forall s1 : Fetcher.fstate, exists lg,
    Fetcher.fbind (Fetcher.try_bases element output_dir Fetcher.UPF_BASE_URLS)
      (fun g =>
         match g with
         | Some name => Fetcher.fret (Some name)
         | None =>
             Fetcher.fbind (Fetcher.flog_msg ERROR (Fetcher.MsgGiveUp element))
               (fun _ => Fetcher.fret None)
         end) e s1
    = match Fetcher.first_hit e (Fetcher.asked s1)
              (map (fun u => (u, 5%Z)) (Fetcher.generic_urls element)) with
      | None =>
          (Ret None,
           {| Fetcher.ffs := Fetcher.ffs s1;
              Fetcher.asked := Fetcher.asked s1
                ++ map (fun u => (u, 5%Z)) (Fetcher.generic_urls element);
              Fetcher.flog := Fetcher.flog s1 ++ lg |})
      | Some (before, c, body) =>
          match Fetcher.fs_write_file (Fetcher.ffs s1) (Fetcher.fcwd e)
                  (Fetcher.os_path_join output_dir (element +:+ ".UPF"))
                  (Fetcher.stored e body) with
          | inr f' =>
              (Ret (Some (Fetcher.os_path_join output_dir (element +:+ ".UPF"))),
               {| Fetcher.ffs := f';
                  Fetcher.asked := Fetcher.asked s1 ++ before ++ c :: nil;
                  Fetcher.flog := Fetcher.flog s1 ++ lg |})
          | inl x =>
              (Raise (OSError x),
               {| Fetcher.ffs := Fetcher.ffs s1;
                  Fetcher.asked := Fetcher.asked s1 ++ before ++ c :: nil;
                  Fetcher.flog := Fetcher.flog s1 ++ lg |})
          end
      end).
  { intros s1. unfold Fetcher.fbind at 1. rewrite try_bases_flat.
    fold (Fetcher.generic_urls element).
    destruct (try_urls_run element output_dir (Fetcher.generic_urls element) e s1)
      as [lg ->].
    destruct (Fetcher.first_hit e _ _) as [[[before c] body]|].
    - destruct (Fetcher.fs_write_file _ _ _ _).
      + exists nil. now rewrite List.app_nil_r.
      + exists lg. reflexivity.
    - eexists. reflexivity. }
  unfold Fetcher.download_upf, Fetcher.try_known, Fetcher.candidates.
  destruct (Fetcher.KNOWN_UPF_URLS !! element) as [url|].
  - cbn [app Fetcher.first_hit].
    rewrite Fetcher_fbind_assoc, fbind_log, Fetcher_fbind_assoc, fbind_get.
    cbn [Fetcher.asked Fetcher.ffs Fetcher.flog].
    destruct (Fetcher.http e (Fetcher.asked s) url 10) as [code body|];
      [destruct (code =? 200)%Z|].
    + rewrite Fetcher_fbind_assoc, fbind_write.
      cbn [Fetcher.asked Fetcher.ffs Fetcher.flog].
      destruct (Fetcher.fs_write_file _ _ _ _).
      * eexists. reflexivity.
      * rewrite Fetcher_fbind_assoc, fbind_log, !fbind_ret.
        cbn [Fetcher.asked Fetcher.ffs Fetcher.flog].
        eexists. unfold Fetcher.fret. now rewrite <- !List.app_assoc.
    + rewrite Fetcher_fbind_assoc, fbind_log, !fbind_ret.
      match goal with |- context [Fetcher.fbind _ _ e ?s1] =>
        destruct (Generic s1) as [lg ->] end.
      cbn [Fetcher.asked Fetcher.ffs Fetcher.flog].
      destruct (Fetcher.first_hit e _ _) as [[[before c] body']|];
        [destruct (Fetcher.fs_write_file _ _ _ _)|];
        eexists; rewrite <- !List.app_assoc; reflexivity.
    + rewrite Fetcher_fbind_assoc, fbind_log, !fbind_ret.
      match goal with |- context [Fetcher.fbind _ _ e ?s1] =>
        destruct (Generic s1) as [lg ->] end.
      cbn [Fetcher.asked Fetcher.ffs Fetcher.flog].
      destruct (Fetcher.first_hit e _ _) as [[[before c] body']|];
        [destruct (Fetcher.fs_write_file _ _ _ _)|];
        eexists; rewrite <- !List.app_assoc; reflexivity.
  - cbn [app]. rewrite fbind_ret. apply Generic.
Qed.

Lemma candidates_length (element : string) :
  length (Fetcher.candidates element) <= 31.
Proof.
  unfold Fetcher.candidates, Fetcher.generic_urls.
  rewrite length_app, length_map.
  change (length (flat_map _ Fetcher.UPF_BASE_URLS)) with 30.
  destruct (Fetcher.KNOWN_UPF_URLS !! element); simpl; lia.
Qed.

(** X15. When no address is answered with the status 200, be it by an
    error of the connection or by another status, [download_upf] returns
    nothing and writes nothing; it has then asked every candidate once,
    the known address of the element first, at most 31 in all. *)
Theorem download_upf_gives_up (element output_dir : string)
    (e : Fetcher.fenv) (s : Fetcher.fstate) :
  Fetcher.misses e (Fetcher.asked s) (Fetcher.candidates element) = true ->
  length (Fetcher.candidates element) <= 31
  /\ exists lg,
       Fetcher.download_upf element output_dir e s
       = (Ret None,
          {| Fetcher.ffs := Fetcher.ffs s;
             Fetcher.asked := Fetcher.asked s ++ Fetcher.candidates element;
             Fetcher.flog := Fetcher.flog s ++ lg |}).
Proof.
  intros H. split; [apply candidates_length|].
  destruct (download_upf_run element output_dir e s) as [lg Hrun].
  exists lg. now rewrite Hrun, (first_hit_none _ _ _ H).
Qed.

Lemma download_upf_gives_up_witness :
  length (Fetcher.candidates "Si") <= 31
  /\ exists lg,
       Fetcher.download_upf "Si" "pseudopotentials" Fetcher.env_down
         (Fetcher.st0 Sample.fs0)
       = (Ret None,
          {| Fetcher.ffs := Fetcher.ffs (Fetcher.st0 Sample.fs0);
             Fetcher.asked := Fetcher.asked (Fetcher.st0 Sample.fs0)
                                ++ Fetcher.candidates "Si";
             Fetcher.flog := Fetcher.flog (Fetcher.st0 Sample.fs0) ++ lg |}).
Proof.
  apply download_upf_gives_up. reflexivity.
Defined.

(** X16. The first candidate that is answered with the status 200 ends
    the search: its body is written to the file named after the element
    alone, whatever the remote name was, that name is returned, and the
    candidates after it are never asked. *)
Theorem download_upf_first_answer (element output_dir : string)
    (e : Fetcher.fenv) (s : Fetcher.fstate)
    (before after : list (string * Z)) (c : string * Z) (body : string)
    (f' : store) :
  Fetcher.candidates element = before ++ c :: after ->
  Fetcher.misses e (Fetcher.asked s) before = true ->
  Fetcher.http e (Fetcher.asked s ++ before) (fst c) (snd c)
  = Fetcher.Response 200 body ->
  Fetcher.fs_write_file (Fetcher.ffs s) (Fetcher.fcwd e)
    (Fetcher.os_path_join output_dir (element +:+ ".UPF")) (Fetcher.stored e body)
  = inr f' ->
  exists lg,
    Fetcher.download_upf element output_dir e s
    = (Ret (Some (Fetcher.os_path_join output_dir (element +:+ ".UPF"))),
       {| Fetcher.ffs := f';
          Fetcher.asked := Fetcher.asked s ++ before ++ c :: nil;
          Fetcher.flog := Fetcher.flog s ++ lg |}).
Proof.
  intros Hc Hm Hh Hw.
  destruct (download_upf_run element output_dir e s) as [lg Hrun].
  exists lg. rewrite Hrun, Hc, (first_hit_intro _ _ _ _ _ _ Hm Hh). now rewrite Hw.
Qed.

Lemma download_upf_first_answer_witness :
  exists lg,
    Fetcher.download_upf "Fe" "."
      (Fetcher.env_one
         "https://raw.githubusercontent.com/dalcorso/pslibrary/master/upf/Fe.pbe-sp-van_ak.UPF")
      (Fetcher.st0 Sample.fs0)
    = (Ret (Some (Fetcher.os_path_join "." ("Fe" +:+ ".UPF"))),
       {| Fetcher.ffs :=
            <[ "home" :: "u" :: "Fe.UPF" :: nil := File true (Text "<UPF/>") ]>
              (<[ "home" :: "u" :: "Fe.UPF" :: nil := File true (Text "") ]> Sample.fs0);
          Fetcher.asked :=
            Fetcher.asked (Fetcher.st0 Sample.fs0)
              ++ firstn 27 (Fetcher.candidates "Fe")
              ++ ("https://raw.githubusercontent.com/dalcorso/pslibrary/master/upf/Fe.pbe-sp-van_ak.UPF",
                  5%Z) :: nil;
          Fetcher.flog := Fetcher.flog (Fetcher.st0 Sample.fs0) ++ lg |}).
Proof.
  apply (download_upf_first_answer "Fe" "." _ _ _
           (skipn 28 (Fetcher.candidates "Fe")) _ "<UPF/>");
    reflexivity.
Defined.



(** * Properties of the search for a pseudopotential file *)

Lemma fnmatch_star_eq (pat name : string) :
  Generator.fnmatch (String "*" pat) name
  = Generator.fnmatch pat name
    || match name with
       | String _ n' => Generator.fnmatch (String "*" pat) n'
       | EmptyString => false
       end.
Proof. destruct name; reflexivity. Qed.

Lemma fnmatch_star (pat name : string) :
  Generator.fnmatch (String "*" pat) name = true <->
  exists mid r, name = mid +:+ r /\ Generator.fnmatch pat r = true.
Proof.
  induction name as [|c name IH]; rewrite fnmatch_star_eq.
  - rewrite orb_false_r. split.
    + intros H. exists "", "". now rewrite sapp_nil_l.
    + intros (mid & r & E & H). destruct mid as [|d mid].
      * rewrite sapp_nil_l in E. now subst r.
      * rewrite sapp_cons in E. discriminate.
  - rewrite orb_true_iff, IH. split.
    + intros [H|(mid & r & -> & H)].
      * exists "", (String c name). now rewrite sapp_nil_l.
      * exists (String c mid), r. now rewrite sapp_cons.
    + intros (mid & r & E & H). destruct mid as [|d mid].
      * rewrite sapp_nil_l in E. subst r. now left.
      * rewrite sapp_cons in E. injection E as _ ->. right. eauto.
Qed.

Lemma special_plain (c : ascii) :
  Generator.special c = false ->
  Ascii.eqb c "*" = false /\ Ascii.eqb c "?" = false.
Proof.
  unfold Generator.special. intros H.
  apply orb_false_iff in H as [H _]. apply orb_false_iff in H as [H _].
  now apply orb_false_iff in H.
Qed.

Lemma fnmatch_plain (c : ascii) (pat name : string) :
  Generator.special c = false ->
  Generator.fnmatch (String c pat) name
  = match name with
    | String d name' => Ascii.eqb c d && Generator.fnmatch pat name'
    | EmptyString => false
    end.
Proof.
  intros H. apply special_plain in H as [H1 H2].
  cbn [Generator.fnmatch]. rewrite H1. destruct name; [reflexivity|].
  now rewrite H2.
Qed.

Lemma fnmatch_prefix (pre rest name : string) :
  Generator.literal pre = true ->
  Generator.fnmatch (pre +:+ rest) name = true <->
  exists r, name = pre +:+ r /\ Generator.fnmatch rest r = true.
Proof.
  revert name. induction pre as [|c pre IH]; intros name L.
  - rewrite sapp_nil_l. split.
    + intros H. exists name. now rewrite sapp_nil_l.
    + intros (r & E & H). rewrite sapp_nil_l in E. now subst r.
  - cbn [Generator.literal] in L. apply andb_true_iff in L as [Lc L].
    apply negb_true_iff in Lc.
    rewrite sapp_cons, (fnmatch_plain _ _ _ Lc).
    destruct name as [|d name].
    + split; [discriminate|]. intros (r & E & _).
      rewrite sapp_cons in E. discriminate.
    + rewrite andb_true_iff, (IH _ L). split.
      * intros [Hc (r & -> & H)]. apply Ascii.eqb_eq in Hc as ->.
        exists r. now rewrite sapp_cons.
      * intros (r & E & H). rewrite sapp_cons in E. injection E as -> ->.
        split; [apply Ascii.eqb_refl|eauto].
Qed.

Lemma fnmatch_literal (s name : string) :
  Generator.literal s = true ->
  Generator.fnmatch s name = true <-> name = s.
Proof.
  intros L. rewrite <- (sapp_nil_r s) at 1. rewrite (fnmatch_prefix _ _ _ L).
  split.
  - intros (r & -> & H). destruct r; [apply sapp_nil_r|discriminate].
  - intros ->. exists "". now rewrite sapp_nil_r.
Qed.

(** What a pattern of the search matches: the names that begin with the
    element and end in the suffix. *)
Lemma fnmatch_upf (element suffix name : string) :
  Generator.literal element = true ->
  Generator.literal suffix = true ->
  Generator.fnmatch (element +:+ String "*" suffix) name = true <->
  upf_name element suffix name.
Proof.
  intros Le Ls. rewrite (fnmatch_prefix _ _ _ Le). unfold upf_name. split.
  - intros (r & -> & H). apply fnmatch_star in H as (mid & r' & -> & H).
    apply (fnmatch_literal _ _ Ls) in H as ->. eauto.
  - intros (mid & ->). exists (mid +:+ suffix). split; [reflexivity|].
    apply fnmatch_star. exists mid, suffix. split; [reflexivity|].
    now apply fnmatch_literal.
Qed.

Lemma glob_head (e : Generator.genv) (f : store) (p : path)
    (pattern name : string) (rest : list string) :
  Generator.glob e f p pattern = name :: rest ->
  Generator.fnmatch pattern name = true
  /\ exists l,
       namei f (if p_abs p then nil else Generator.gcwd e) (p_parts p) = inr l
       /\ node_at f l = Some Dir
       /\ In name (Generator.scandir e f l).
Proof.
  unfold Generator.glob.
  destruct (namei f _ (p_parts p)) as [x|l]; [discriminate|].
  destruct (node_at f l) as [[|r d]|] eqn:E; try discriminate.
  intros H.
  assert (Hin : In name (List.filter (Generator.fnmatch pattern)
                           (Generator.scandir e f l))) by (rewrite H; now left).
  apply filter_In in Hin as [Hin Hm]. eauto.
Qed.

Lemma filter_none {A : Type} (p : A -> bool) (xs : list A) :
  List.Forall (fun x => p x = false) xs -> List.filter p xs = nil.
Proof.
  induction 1 as [|x xs Hx _ IH]; [reflexivity|].
  cbn [List.filter]. now rewrite Hx.
Qed.

Lemma filter_first {A : Type} (p : A -> bool) (skipped later : list A) (x : A) :
  List.Forall (fun y => p y = false) skipped -> p x = true ->
  List.filter p (skipped ++ x :: later)%list = x :: List.filter p later.
Proof.
  intros Hs Hx. rewrite List.filter_app, (filter_none _ _ Hs).
  cbn [app List.filter]. now rewrite Hx.
Qed.

Lemma no_match (element suffix : string) (names : list string) :
  Generator.literal element = true ->
  Generator.literal suffix = true ->
  List.Forall (fun n => ~ upf_name element suffix n) names ->
  List.Forall
    (fun n => Generator.fnmatch (element +:+ String "*" suffix) n = false)
    names.
Proof.
  intros Le Ls H. eapply List.Forall_impl; [|exact H].
  intros n Hn. cbv beta in Hn. rewrite <- (fnmatch_upf _ _ _ Le Ls) in Hn.
  now destruct (Generator.fnmatch _ n).
Qed.

Lemma search_passes_two (e : Generator.genv) (f : store) (p : path)
    (element pseudo_dir a b : string) :
  Generator.search_passes e f p element pseudo_dir (a :: b :: nil)
  = match Generator.glob e f p (element +:+ "*.UPF") with
    | name :: _ => (Some name, (INFO, Generator.MsgFound element name) :: nil)
    | nil =>
        match Generator.glob e f p (element +:+ "*.upf") with
        | name :: _ => (Some name, (INFO, Generator.MsgFound element name) :: nil)
        | nil => (None, (WARNING, Generator.MsgNotFound element pseudo_dir) :: nil)
        end
    end.
Proof.
  cbn [Generator.search_passes].
  destruct (Generator.glob e f p (element +:+ "*.UPF")); [|reflexivity].
  now destruct (Generator.glob e f p (element +:+ "*.upf")).
Qed.

(** X18. A name [find_pseudopotential] returns is an entry of the
    directory of pseudopotentials that begins with the element and ends
    in .UPF or .upf; what stands between the two is not looked at, so
    the file of another element with the same first letters qualifies
    as well. *)
Theorem find_pseudopotential_found (e : Generator.genv) (f : store)
    (element pseudo_dir name : string) :
  Generator.literal element = true ->
  fst (Generator.find_pseudopotential e f element pseudo_dir) = Some name ->
  (upf_name element ".UPF" name \/ upf_name element ".upf" name)
  /\ exists l,
       namei f (if p_abs (Path pseudo_dir) then nil else Generator.gcwd e)
         (p_parts (Path pseudo_dir)) = inr l
       /\ node_at f l = Some Dir
       /\ In name (Generator.scandir e f l).
Proof.
  intros Le. unfold Generator.find_pseudopotential. cbv zeta.
  destruct (fs_exists f _ _); cbn [negb]; [|discriminate].
  rewrite search_passes_two.
  destruct (Generator.glob e f (Path pseudo_dir) (element +:+ "*.UPF"))
    as [|n1 r1] eqn:G1.
  - destruct (Generator.glob e f (Path pseudo_dir) (element +:+ "*.upf"))
      as [|n2 r2] eqn:G2; [discriminate|].
    intros [= <-]. destruct (glob_head _ _ _ _ _ _ G2) as [Hm Hl].
    apply (fnmatch_upf _ ".upf" _ Le eq_refl) in Hm. split; [now right|exact Hl].
  - intros [= <-]. destruct (glob_head _ _ _ _ _ _ G1) as [Hm Hl].
    apply (fnmatch_upf _ ".UPF" _ Le eq_refl) in Hm. split; [now left|exact Hl].
Qed.

Lemma find_pseudopotential_found_witness :
  (upf_name "C" ".UPF" "Cu.pbe.UPF" \/ upf_name "C" ".upf" "Cu.pbe.UPF")
  /\ exists l,
       namei Generator.fs_upf
         (if p_abs (Path "./ps") then nil else Generator.gcwd Generator.env_upf)
         (p_parts (Path "./ps")) = inr l
       /\ node_at Generator.fs_upf l = Some Dir
       /\ In "Cu.pbe.UPF" (Generator.scandir Generator.env_upf Generator.fs_upf l).
Proof.
  apply (find_pseudopotential_found Generator.env_upf Generator.fs_upf "C" "./ps");
    vm_compute; reflexivity.
Defined.

(** X19. Upper case comes first: as soon as the directory lists a name
    that begins with the element and ends in .UPF, the first such name of
    the listing is returned, also when names ending in .upf are listed
    before it. *)
Theorem find_pseudopotential_prefers_upper (e : Generator.genv) (f : store)
    (element pseudo_dir : string) (l : loc) (skipped later : list string)
    (name : string) :
  Generator.literal element = true ->
  namei f (if p_abs (Path pseudo_dir) then nil else Generator.gcwd e)
    (p_parts (Path pseudo_dir)) = inr l ->
  node_at f l = Some Dir ->
  Generator.scandir e f l = (skipped ++ name :: later)%list ->
  List.Forall (fun n => ~ upf_name element ".UPF" n) skipped ->
  upf_name element ".UPF" name ->
  Generator.find_pseudopotential e f element pseudo_dir
  = (Some name, (INFO, Generator.MsgFound element name) :: nil).
Proof.
  intros Le Hn Hd Hs Hskip Hname.
  apply (fnmatch_upf _ ".UPF" _ Le eq_refl) in Hname.
  apply (no_match _ ".UPF" _ Le eq_refl) in Hskip.
  unfold Generator.find_pseudopotential. cbv zeta.
  unfold fs_exists. rewrite Hn, Hd. cbn [negb].
  rewrite search_passes_two. unfold Generator.glob at 1.
  rewrite Hn, Hd, Hs. change (element +:+ "*.UPF") with (element +:+ String "*" ".UPF").
  now rewrite (filter_first _ _ _ _ Hskip Hname).
Qed.

Lemma find_pseudopotential_prefers_upper_witness :
  Generator.find_pseudopotential Generator.env_upf Generator.fs_upf "C" "./ps"
  = (Some "Cu.pbe.UPF", (INFO, Generator.MsgFound "C" "Cu.pbe.UPF") :: nil).
Proof.
  apply (find_pseudopotential_prefers_upper _ _ "C" "./ps"
           ("home" :: "u" :: "ps" :: nil) ("C.pbe.upf" :: nil) nil);
    try reflexivity.
  - constructor; [|constructor]. intros H.
    apply (fnmatch_upf "C" ".UPF" _ eq_refl eq_refl) in H. discriminate.
  - now exists "u.pbe".
Defined.

(** X20. When the path of the directory exists and no listed name begins
    with the element and ends in .UPF or .upf, or when the path is not a
    directory at all, nothing is returned and the warning names the
    element and the directory. *)
Theorem find_pseudopotential_nothing (e : Generator.genv) (f : store)
    (element pseudo_dir : string) (l : loc) (n : node) :
  Generator.literal element = true ->
  namei f (if p_abs (Path pseudo_dir) then nil else Generator.gcwd e)
    (p_parts (Path pseudo_dir)) = inr l ->
  node_at f l = Some n ->
  (n = Dir ->
   List.Forall
     (fun x => ~ upf_name element ".UPF" x /\ ~ upf_name element ".upf" x)
     (Generator.scandir e f l)) ->
  Generator.find_pseudopotential e f element pseudo_dir
  = (None, (WARNING, Generator.MsgNotFound element pseudo_dir) :: nil).
Proof.
  intros Le Hn Hd Hall.
  unfold Generator.find_pseudopotential. cbv zeta.
  unfold fs_exists. rewrite Hn, Hd. cbn [negb].
  rewrite search_passes_two. unfold Generator.glob. rewrite Hn, Hd.
  destruct n as [|r d]; [|reflexivity].
  specialize (Hall eq_refl).
  change (element +:+ "*.UPF") with (element +:+ String "*" ".UPF").
  change (element +:+ "*.upf") with (element +:+ String "*" ".upf").
  rewrite (filter_none (Generator.fnmatch (element +:+ String "*" ".UPF"))),
          (filter_none (Generator.fnmatch (element +:+ String "*" ".upf")));
    [reflexivity| |].
  - apply (no_match _ ".upf" _ Le eq_refl).
    eapply List.Forall_impl; [|exact Hall]. now intros x [_ H].
  - apply (no_match _ ".UPF" _ Le eq_refl).
    eapply List.Forall_impl; [|exact Hall]. now intros x [H _].
Qed.

Lemma find_pseudopotential_nothing_witness :
  Generator.find_pseudopotential Generator.env_other Generator.fs_upf "C" "./ps"
  = (None, (WARNING, Generator.MsgNotFound "C" "./ps") :: nil).
Proof.
  apply (find_pseudopotential_nothing _ _ "C" "./ps"
           ("home" :: "u" :: "ps" :: nil) Dir);
    try reflexivity.
  intros _. cbn [Generator.scandir Generator.env_other].
  repeat (apply List.Forall_cons; [split|]); try apply List.Forall_nil;
    intros H;
    (apply (fnmatch_upf "C" ".UPF" _ eq_refl eq_refl) in H
     || apply (fnmatch_upf "C" ".upf" _ eq_refl eq_refl) in H);
    discriminate.
Defined.
